(** * WeakRef.cpp: the script-visible weak reference of the runtime

    A shallow embedding of [runtime/src/main/jni/WeakRef.cpp].  The engine
    heap (script objects, [Persistent] cells, [CallbackState] records) is a
    record of finite maps; every C++ function of the file is a computation
    in a state monad whose outcome is a value, a C++ exception in flight or
    undefined behaviour (a dereference of a null or dangling pointer, a
    double delete, control reaching the end of a non-void function). *)

From stdpp Require Import gmap strings list fin_maps.

Local Open Scope string_scope.

(** ** Data model *)

(** Addresses of the three kinds of heap cells.  Each kind has its own
    address space. *)
Abbreviation addr := positive (only parsing).

(** A raw C++ pointer: [None] is [nullptr]. *)
Abbreviation ptr := (option positive) (only parsing).

(** [Local<Object>] and [Local<Function>]: [None] is the empty handle. *)
Abbreviation Local := (option positive) (only parsing).

(** [Local<Value>]: the script values the file distinguishes. *)
Inductive Value :=
  | VUndefined
  | VNull
  | VBoolean (b : bool)
  | VNumber (n : Z)
  | VString (s : string)
  | VObject (o : addr).

Global Instance Value_eq_dec : EqDecision Value.
Proof. solve_decision. Defined.

(** [Value::IsObject]. *)
Definition IsObject (v : Value) : bool :=
  match v with VObject _ => true | _ => false end.

(** [Local<Value>::As<Object>], meaningful after [IsObject]. *)
Definition As_Object (v : Value) : Local :=
  match v with VObject o => Some o | _ => None end.

(** The native callbacks a function object can carry. *)
Inductive FunctionCallback := cbGettertCallback | cbClearCallback.

(** A script object: its properties, the hidden value stored under the key
    [V8StringConstants::GetTarget()] ([None]: no such hidden value;
    [Some e]: an [External] wrapping the pointer [e]) and, for a function
    object, its native callback. *)
Record JSObject := mkJSObject {
  properties : gmap string Value;
  hidden_target : option ptr;
  native : option FunctionCallback
}.

Definition empty_object : JSObject := mkJSObject ∅ None None.

(** The two weak callbacks of the file. *)
Inductive WeakCallback := cbWeakTargetCallback | cbWeakHolderCallback.

Global Instance WeakCallback_eq_dec : EqDecision WeakCallback.
Proof. solve_decision. Defined.

(** A heap-allocated [Persistent<Object>] cell: the object it refers to
    (empty after [Reset]) and its weak registration, the parameter and the
    callback given to [SetWeak]. *)
Record Persistent := mkPersistent {
  referent : Local;
  weak : option (addr * WeakCallback)
}.

(** Modelled from the spec: [CallbackState], declared in [WeakRef.h], "the
    shared record coordinating the two handles for one weak-reference
    instance"; the two fields are named as the code reads and writes
    them. *)
Record CallbackState := mkCallbackState {
  target : ptr;
  holder : ptr
}.

Global Instance CallbackState_eq_dec : EqDecision CallbackState.
Proof. solve_decision. Defined.

(** The object table that hands out empty wrapper objects. *)
Inductive ObjectManager := TheObjectManager.

(** The members of [class WeakRef], as its constructor initialises
    them. *)
Record WeakRef := mkWeakRef {
  m_objectManager : option ObjectManager;
  m_poClearFunc : ptr;
  m_poGetterFunc : ptr
}.

(** The engine heap together with the bridge controller.  [freed] logs
    every [delete] of a [CallbackState], most recent first, with the
    contents the record had when it was deleted.  [leaked] logs, most
    recent first, every engine handle that was still held by its
    [Persistent] cell when the cell was deleted: nothing owns such a
    handle any more, and nothing can release it. *)
Record Heap := mkHeap {
  objects : gmap positive JSObject;
  persistents : gmap positive Persistent;
  states : gmap positive CallbackState;
  freed : list (positive * CallbackState);
  leaked : list (positive * Persistent);
  thiz : WeakRef
}.

Definition set_objects (f : gmap positive JSObject → gmap positive JSObject) (h : Heap) : Heap :=
  mkHeap (f (objects h)) (persistents h) (states h) (freed h) (leaked h) (thiz h).

Definition set_persistents (f : gmap positive Persistent → gmap positive Persistent) (h : Heap) : Heap :=
  mkHeap (objects h) (f (persistents h)) (states h) (freed h) (leaked h) (thiz h).

Definition set_states (f : gmap positive CallbackState → gmap positive CallbackState) (h : Heap) : Heap :=
  mkHeap (objects h) (persistents h) (f (states h)) (freed h) (leaked h) (thiz h).

Definition set_freed (f : list (positive * CallbackState) → list (positive * CallbackState)) (h : Heap) : Heap :=
  mkHeap (objects h) (persistents h) (states h) (f (freed h)) (leaked h) (thiz h).

Definition set_leaked (f : list (positive * Persistent) → list (positive * Persistent)) (h : Heap) : Heap :=
  mkHeap (objects h) (persistents h) (states h) (freed h) (f (leaked h)) (thiz h).

Definition set_thiz (f : WeakRef → WeakRef) (h : Heap) : Heap :=
  mkHeap (objects h) (persistents h) (states h) (freed h) (leaked h) (f (thiz h)).

(** [const FunctionCallbackInfo<Value>& args]. *)
Record FunctionCallbackInfo := mkArgs {
  IsConstructCall : bool;
  This : Local;
  argv : list Value
}.

(** [args.Length()]. *)
Definition Length (args : FunctionCallbackInfo) : nat := length (argv args).

(** [args[i]]: [undefined] out of range, as the engine has it. *)
Definition arg (args : FunctionCallbackInfo) (i : nat) : Value :=
  default VUndefined (argv args !! i).

(** ** Faults and outcomes *)

(** What a C++ [throw] can carry, as the three handlers of the file tell
    them apart.  [StdException what] carries the text [what()] yields on
    the copy the by-value handler receives. *)
Inductive Fault :=
  | NativeScriptException (message : string)
  | StdException (what : string)
  | UnknownFault.

Inductive Outcome (A : Type) :=
  | Ok (a : A)
  | Throw (f : Fault)
  | Undef.
Arguments Ok {A} a.
Arguments Throw {A} f.
Arguments Undef {A}.

(** How a callback invoked by the engine ends, seen from the engine. *)
Inductive Completion (A : Type) :=
  | Returned (a : A)
  | ScriptException (message : string)
  | Escaped (f : Fault)
  | Crashed.
Arguments Returned {A} a.
Arguments ScriptException {A} message.
Arguments Escaped {A} f.
Arguments Crashed {A}.

Definition M (A : Type) : Type := Heap → Outcome A * Heap.
Definition Entry (A : Type) : Type := Heap → Completion A * Heap.

Global Instance M_ret : MRet M := λ A a h, (Ok a, h).

Global Instance M_bind : MBind M := λ A B f m h,
  match m h with
  | (Ok a, h') => f a h'
  | (Throw e, h') => (Throw e, h')
  | (Undef, h') => (Undef, h')
  end.

Definition throw {A} (f : Fault) : M A := λ h, (Throw f, h).
Definition undefined_behaviour {A} : M A := λ h, (Undef, h).
Definition get_heap : M Heap := λ h, (Ok h, h).
Definition modify (f : Heap → Heap) : M unit := λ h, (Ok tt, f h).

(** The text of the script exception each handler of the file raises. *)
Definition newline : string := String (Ascii.ascii_of_nat 10) EmptyString.

Definition ReThrowToV8 (f : Fault) : string :=
  match f with
  | NativeScriptException message => message
  | StdException what => "Error: c++ exception: " ++ what ++ newline
  | UnknownFault => "Error: c++ exception!"
  end.

(** [try { body } catch (NativeScriptException&) ... catch (std::exception)
    ... catch (...) ...] around the whole body of a [void] function: each
    handler turns the fault into a pending script exception and the
    function returns. *)
Definition try_catch {A} (body : M A) : Entry A := λ h,
  match body h with
  | (Ok a, h') => (Returned a, h')
  | (Throw f, h') => (ScriptException (ReThrowToV8 f), h')
  | (Undef, h') => (Crashed, h')
  end.

(** A callback body with no handler around it. *)
Definition no_try {A} (body : M A) : Entry A := λ h,
  match body h with
  | (Ok a, h') => (Returned a, h')
  | (Throw f, h') => (Escaped f, h')
  | (Undef, h') => (Crashed, h')
  end.

(** The same three handlers around the body of a function that returns a
    [Local<Function>]: after a handler has run, control reaches the end of
    the function without a [return]. *)
Definition try_catch_no_return {A} (body : M A) : M A := λ h,
  match body h with
  | (Throw f, h') => (Undef, h')
  | r => r
  end.

(** ** The engine interface and the functions of the file *)

(** The calls into the engine and into the other units of the runtime.
    Any of them may raise a native fault. *)
Inductive Site :=
  | sGetEmptyObject
  | sNew
  | sSetWeak
  | sReset
  | sLocalNew
  | sConvertToV8String (s : string)
  | sSet
  | sGetTarget
  | sExternalNew
  | sSetHiddenValue
  | sGetHiddenValue
  | sFunctionTemplateNew
  | sGetFunction
  | sNull.

Global Instance Site_eq_dec : EqDecision Site.
Proof. solve_decision. Defined.

(** No call faults. *)
Definition quiet : Site → option Fault := λ _, None.
Arguments quiet _ /.

(** Where the two arguments of a call are calls themselves, as in
    [obj->SetHiddenValue(V8StringConstants::GetTarget(), External::New(isolate, p))],
    the language leaves it to the compiler which of them is made first;
    one is made wholly before the other. *)
Inductive ArgOrder := LeftToRight | RightToLeft.

Definition args2 {A B} (order : ArgOrder) (a : M A) (b : M B) : M (A * B) :=
  match order with
  | LeftToRight => x ← a; y ← b; mret (x, y)
  | RightToLeft => y ← b; x ← a; mret (x, y)
  end.

Section WithFaults.

(** Which calls raise a fault, and which. *)
Variable faults : Site → option Fault.

Definition call {A} (s : Site) (m : M A) : M A := λ h,
  match faults s with
  | Some f => (Throw f, h)
  | None => m h
  end.

(** Modelled from the spec: [ObjectManager::GetEmptyObject], "the object
    table that allocates fresh wrapper objects"; its definition is in
    another unit.  Called through [m_objectManager], which must not be
    null. *)
Definition GetEmptyObject : M Local := λ h,
  match m_objectManager (thiz h) with
  | None => (Undef, h)
  | Some _ =>
      call sGetEmptyObject (λ h,
        let o := fresh (dom (objects h)) in
        (Ok (Some o), set_objects <[o := empty_object]> h)) h
  end.

(** [new Persistent<Object>(isolate, obj)]: a strong handle in a fresh
    cell. *)
Definition new_Persistent (obj : Local) : M ptr :=
  call sNew (λ h,
    let p := fresh (dom (persistents h)) in
    (Ok (Some p), set_persistents <[p := mkPersistent obj None]> h)).

(** [new CallbackState(poTarget, poHolder)].  The address of a deleted
    record is not handed out again, so that [freed] tells the records
    apart. *)
Definition new_CallbackState (poTarget poHolder : ptr) : M addr :=
  call sNew (λ h,
    let c := fresh (dom (states h) ∪ list_to_set (freed h).*1) in
    (Ok c, set_states <[c := mkCallbackState poTarget poHolder]> h)).

(** [callbackState->target], [callbackState->holder] and the assignments
    to them. *)
Definition read_state (callbackState : addr) : M CallbackState := λ h,
  match states h !! callbackState with
  | Some st => (Ok st, h)
  | None => (Undef, h)
  end.

Definition write_target (callbackState : addr) (p : ptr) : M unit := λ h,
  match states h !! callbackState with
  | Some st => (Ok tt, set_states <[callbackState := mkCallbackState p (holder st)]> h)
  | None => (Undef, h)
  end.

Definition write_holder (callbackState : addr) (p : ptr) : M unit := λ h,
  match states h !! callbackState with
  | Some st => (Ok tt, set_states <[callbackState := mkCallbackState (target st) p]> h)
  | None => (Undef, h)
  end.

(** [delete callbackState]. *)
Definition delete_CallbackState (callbackState : addr) : M unit := λ h,
  match states h !! callbackState with
  | Some st =>
      (Ok tt, set_freed (cons (callbackState, st)) (set_states (delete callbackState) h))
  | None => (Undef, h)
  end.

(** The cell a [Persistent<Object>*] points to. *)
Definition deref (p : ptr) : M (addr * Persistent) := λ h,
  match p with
  | Some a =>
      match persistents h !! a with
      | Some c => (Ok (a, c), h)
      | None => (Undef, h)
      end
  | None => (Undef, h)
  end.

(** [p->SetWeak(callbackState, callback)]. *)
Definition SetWeak (p : ptr) (callbackState : addr) (callback : WeakCallback) : M unit :=
  '(a, c) ← deref p;
  call sSetWeak
    (modify (set_persistents <[a := mkPersistent (referent c) (Some (callbackState, callback))]>)).

(** [p->Reset()]: the engine handle the cell holds is released, with its
    weak registration, and the cell holds nothing. *)
Definition Reset (p : ptr) : M unit :=
  '(a, c) ← deref p;
  call sReset (modify (set_persistents <[a := mkPersistent None None]>)).

(** [p->IsEmpty()]: the cell holds no engine handle, as after
    [Reset]. *)
Definition IsEmpty (c : Persistent) : bool :=
  match referent c, weak c with
  | None, None => true
  | _, _ => false
  end.

(** [delete p] on a [Persistent<Object>*]; deleting [nullptr] does
    nothing.  The cell is freed, and that is all: the destructor of a
    [Persistent] does not release the engine handle the cell holds (its
    traits have [kResetInDestructor] false), only [Reset] does.  A handle
    that the cell still holds stays in the engine, with its weak
    registration, and is logged in [leaked]. *)
Definition delete_Persistent (p : ptr) : M unit := λ h,
  match p with
  | Some a =>
      match persistents h !! a with
      | Some c =>
          (Ok tt,
           set_persistents (delete a)
             (if IsEmpty c then h else set_leaked (cons (a, c)) h))
      | None => (Undef, h)
      end
  | None => (Ok tt, h)
  end.

(** [Local<Object>::New(isolate, *p)]. *)
Definition Local_New (p : ptr) : M Local :=
  '(a, c) ← deref p;
  call sLocalNew (mret (referent c)).

(** [V8StringConstants::GetTarget()], the key of the hidden slot. *)
Definition GetTarget : M unit := call sGetTarget (mret tt).

(** [External::New(isolate, p)]. *)
Definition External_New {A} (p : A) : M A := call sExternalNew (mret p).

(** [obj->SetHiddenValue(V8StringConstants::GetTarget(), e)]. *)
Definition SetHiddenValue (obj : Local) (e : ptr) : M unit := λ h,
  match obj with
  | Some o =>
      match objects h !! o with
      | Some ob =>
          call sSetHiddenValue
            (modify (set_objects
               <[o := mkJSObject (properties ob) (Some e) (native ob)]>)) h
      | None => (Undef, h)
      end
  | None => (Undef, h)
  end.

(** [obj->GetHiddenValue(V8StringConstants::GetTarget())]: the empty
    handle when the object has no such hidden value. *)
Definition GetHiddenValue (obj : Local) : M (option ptr) := λ h,
  match obj with
  | Some o =>
      match objects h !! o with
      | Some ob => call sGetHiddenValue (mret (hidden_target ob)) h
      | None => (Undef, h)
      end
  | None => (Undef, h)
  end.

(** [reinterpret_cast<Persistent<Object>*>(v.As<External>()->Value())]:
    dereferences the handle [v]. *)
Definition External_Value (v : option ptr) : M ptr :=
  match v with
  | Some e => mret e
  | None => undefined_behaviour
  end.

(** [ArgConverter::ConvertToV8String(s)]. *)
Definition ConvertToV8String (s : string) : M string :=
  call (sConvertToV8String s) (mret s).

(** [obj->Set(key, value)] with a function handle as the value. *)
Definition Set_ (obj : Local) (key : string) (value : Local) : M unit := λ h,
  match obj, value with
  | Some o, Some f =>
      match objects h !! o with
      | Some ob =>
          call sSet
            (modify (set_objects
               <[o := mkJSObject (<[key := VObject f]> (properties ob))
                                 (hidden_target ob) (native ob)]>)) h
      | None => (Undef, h)
      end
  | _, _ => (Undef, h)
  end.

(** [FunctionTemplate::New(isolate, callback, extData)->GetFunction()]. *)
Definition FunctionTemplate_New_GetFunction (callback : FunctionCallback) : M Local :=
  call sFunctionTemplateNew
    (call sGetFunction (λ h,
       let f := fresh (dom (objects h)) in
       (Ok (Some f), set_objects <[f := mkJSObject ∅ None (Some callback)]> h))).

(** [new Persistent<Function>(isolate, f)] stored into a member of the
    controller. *)
Definition store_m_poGetterFunc (p : ptr) : M unit :=
  modify (set_thiz (λ w, mkWeakRef (m_objectManager w) (m_poClearFunc w) p)).

Definition store_m_poClearFunc (p : ptr) : M unit :=
  modify (set_thiz (λ w, mkWeakRef (m_objectManager w) p (m_poGetterFunc w))).

(** [args.GetReturnValue().Set(handle)]: an empty handle leaves the
    default, [undefined]. *)
Definition ReturnValue_Set (handle : Local) : Value :=
  match handle with
  | Some o => VObject o
  | None => VUndefined
  end.

(** [Null(isolate)]. *)
Definition Null : M Value := call sNull (mret VNull).

(** [WeakRef::WeakRef()]. *)
Definition WeakRef_new : WeakRef := mkWeakRef None None None.

(** [WeakRef::Init]: remembers the object manager and installs the
    constructor on the global object template (the template is the
    engine's own data).  [order] is the order in which the compiled code
    makes the two calls in the arguments of [Set]. *)
Definition Init_ordered (order : ArgOrder) (objectManager : option ObjectManager) : M unit :=
  modify (set_thiz (λ w, mkWeakRef objectManager (m_poClearFunc w) (m_poGetterFunc w)));;
  External_New tt;;
  args2 order (ConvertToV8String "WeakRef") (call sFunctionTemplateNew (mret tt));;
  call sSet (mret tt).

(** [WeakRef::Init] as compiled with the arguments of a call evaluated
    from left to right. *)
Definition Init (objectManager : option ObjectManager) : M unit :=
  Init_ordered LeftToRight objectManager.

(** [WeakRef::GetGetterFunction]. *)
Definition GetGetterFunction : M Local :=
  try_catch_no_return (
    h ← get_heap;
    match m_poGetterFunc (thiz h) with
    | Some p => Local_New (Some p)
    | None =>
        External_New tt;;
        getterFunc ← FunctionTemplate_New_GetFunction cbGettertCallback;
        p ← new_Persistent getterFunc;
        store_m_poGetterFunc p;;
        mret getterFunc
    end).

(** [WeakRef::GetClearFunction]. *)
Definition GetClearFunction : M Local :=
  try_catch_no_return (
    h ← get_heap;
    match m_poClearFunc (thiz h) with
    | Some p => Local_New (Some p)
    | None =>
        External_New tt;;
        clearFunc ← FunctionTemplate_New_GetFunction cbClearCallback;
        p ← new_Persistent clearFunc;
        store_m_poClearFunc p;;
        mret clearFunc
    end).

(** [WeakRef::ConstructorCallbackImpl].  Three of its calls have two
    calls as arguments; [oget], [oclear] and [oslot] are the orders in
    which the compiled code makes them. *)
Definition ConstructorCallbackImpl_ordered (oget oclear oslot : ArgOrder)
    (args : FunctionCallbackInfo) : M Value :=
  if IsConstructCall args then
    if decide (Length args = 1) then
      let target := arg args 0 in
      if IsObject target then
        let targetObj := As_Object target in
        weakRef ← GetEmptyObject;
        poTarget ← new_Persistent targetObj;
        poHolder ← new_Persistent weakRef;
        callbackState ← new_CallbackState poTarget poHolder;
        SetWeak poTarget callbackState cbWeakTargetCallback;;
        SetWeak poHolder callbackState cbWeakHolderCallback;;
        '(kget, getter) ← args2 oget (ConvertToV8String "get") GetGetterFunction;
        Set_ weakRef kget getter;;
        '(kclear, clear) ← args2 oclear (ConvertToV8String "clear") GetClearFunction;
        Set_ weakRef kclear clear;;
        '(_, e) ← args2 oslot GetTarget (External_New poTarget);
        SetHiddenValue weakRef e;;
        mret (ReturnValue_Set weakRef)
      else
        throw (NativeScriptException "The WeakRef constructor expects an object argument.")
    else
      throw (NativeScriptException "The WeakRef constructor expects single parameter.")
  else
    throw (NativeScriptException "WeakRef must be used as a construct call.").

(** [WeakRef::ConstructorCallback]. *)
Definition ConstructorCallback_ordered (oget oclear oslot : ArgOrder)
    (args : FunctionCallbackInfo) : Entry Value :=
  try_catch (ConstructorCallbackImpl_ordered oget oclear oslot args).

(** [WeakRef::WeakTargetCallback]; [callbackState] is
    [data.GetParameter()], [order] the order in which the compiled code
    makes the two calls in the arguments of [SetHiddenValue]. *)
Definition WeakTargetCallback_ordered (order : ArgOrder) (callbackState : addr) : Entry unit :=
  no_try (
    st ← read_state callbackState;
    let poTarget := target st in
    Reset poTarget;;
    delete_Persistent poTarget;;
    write_target callbackState None;;
    st ← read_state callbackState;
    let poHolder := holder st in
    (if poHolder is Some _ then
       holder ← Local_New poHolder;
       '(_, e) ← args2 order GetTarget (External_New None);
       SetHiddenValue holder e
     else mret tt);;
    st ← read_state callbackState;
    if holder st is None then delete_CallbackState callbackState else mret tt).

(** [WeakRef::WeakHolderCallback]. *)
Definition WeakHolderCallback (callbackState : addr) : Entry unit :=
  try_catch (
    st ← read_state callbackState;
    let poHolder := holder st in
    holder ← Local_New poHolder;
    GetTarget;;
    v ← GetHiddenValue holder;
    poTarget ← External_Value v;
    if poTarget is Some _ then
      SetWeak poHolder callbackState cbWeakHolderCallback
    else
      Reset poHolder;;
      delete_Persistent poHolder;;
      write_holder callbackState None;;
      st ← read_state callbackState;
      if target st is None then delete_CallbackState callbackState else mret tt).

(** [WeakRef::ClearCallback]; [order] is the order in which the compiled
    code makes the two calls in the arguments of [SetHiddenValue]. *)
Definition ClearCallback_ordered (order : ArgOrder) (args : FunctionCallbackInfo) : Entry Value :=
  try_catch (
    let holder := This args in
    '(_, e) ← args2 order GetTarget (External_New None);
    SetHiddenValue holder e;;
    mret VUndefined).

(** The four functions above as compiled with the arguments of every
    call evaluated from left to right.  The order is immaterial unless
    both argument calls of one call raise, or, in the constructor, the
    conversion of a property name raises (lemmas [Init_any_order] to
    [ClearCallback_any_order]). *)
Definition ConstructorCallbackImpl (args : FunctionCallbackInfo) : M Value :=
  ConstructorCallbackImpl_ordered LeftToRight LeftToRight LeftToRight args.

Definition ConstructorCallback (args : FunctionCallbackInfo) : Entry Value :=
  try_catch (ConstructorCallbackImpl args).

Definition WeakTargetCallback (callbackState : addr) : Entry unit :=
  WeakTargetCallback_ordered LeftToRight callbackState.

Definition ClearCallback (args : FunctionCallbackInfo) : Entry Value :=
  ClearCallback_ordered LeftToRight args.

(** [WeakRef::GettertCallback]. *)
Definition GettertCallback (args : FunctionCallbackInfo) : Entry Value :=
  try_catch (
    let holder := This args in
    GetTarget;;
    v ← GetHiddenValue holder;
    poTarget ← External_Value v;
    if poTarget is Some _ then
      target ← Local_New poTarget;
      mret (ReturnValue_Set target)
    else
      Null).

End WithFaults.

(** ** The collector and the script *)

(** What can happen to the heap from outside the file. *)
Inductive Event :=
  | eConstruct (args : FunctionCallbackInfo)
  | eGet (this : addr)
  | eClear (this : addr)
  | eNewObject
  | eCollect (p : addr).

Section Collector.

Variable faults : Site → option Fault.

(** Modelled from the spec: the collector's side of a weak handle, "a
    registered finalize callback [is called] at most once per handle, at
    an unspecified future point"; a handle whose callback has been called
    stays unregistered unless the callback re-arms it.  [collect p]
    consumes the registration of the cell [p] and calls the registered
    callback with the registered parameter; it does nothing on a cell
    that is not registered.  A handle in [leaked] has no cell and is not
    visited; the functions of the file put none there. *)
Definition collect (p : addr) : Entry unit := λ h,
  match persistents h !! p with
  | Some (mkPersistent obj (Some (callbackState, callback))) =>
      let h1 := set_persistents <[p := mkPersistent obj None]> h in
      match callback with
      | cbWeakTargetCallback => WeakTargetCallback faults callbackState h1
      | cbWeakHolderCallback => WeakHolderCallback faults callbackState h1
      end
  | _ => (Returned tt, h)
  end.

(** The script creates an ordinary object. *)
Definition new_object : Entry Value := λ h,
  let o := fresh (dom (objects h)) in
  (Returned (VObject o), set_objects <[o := empty_object]> h).

(** A method call [this.get()] or [this.clear()] from the script. *)
Definition method_call (this : addr) : FunctionCallbackInfo :=
  mkArgs false (Some this) [].

Definition forget {A} (r : Completion A * Heap) : Completion unit * Heap :=
  match r with
  | (Returned _, h) => (Returned tt, h)
  | (ScriptException m, h) => (ScriptException m, h)
  | (Escaped f, h) => (Escaped f, h)
  | (Crashed, h) => (Crashed, h)
  end.

Definition step (e : Event) : Entry unit := λ h,
  match e with
  | eConstruct args => forget (ConstructorCallback faults args h)
  | eGet this => forget (GettertCallback faults (method_call this) h)
  | eClear this => forget (ClearCallback faults (method_call this) h)
  | eNewObject => forget (new_object h)
  | eCollect p => collect p h
  end.

(** A run: the events in order; it ends where a callback crashes the
    process or lets a fault into the engine. *)
Fixpoint exec (es : list Event) (h : Heap) : option Heap :=
  match es with
  | [] => Some h
  | e :: es =>
      match step e h with
      | (Returned _, h') | (ScriptException _, h') => exec es h'
      | _ => None
      end
  end.

End Collector.

(** The heap of a process that has just initialised its bridge
    controller. *)
Definition boot : Heap :=
  (Init quiet (Some TheObjectManager) (mkHeap ∅ ∅ ∅ [] [] WeakRef_new)).2.

(** [new WeakRef(v1, ..., vn)] and [WeakRef(v1, ..., vn)]. *)
Definition construct_call (vs : list Value) : FunctionCallbackInfo :=
  mkArgs true None vs.

Definition plain_call (vs : list Value) : FunctionCallbackInfo :=
  mkArgs false None vs.

(** ** Well-formed heaps *)

(** The hidden slot rewritten to the absent sentinel. *)
Definition absent (ob : JSObject) : JSObject :=
  mkJSObject (properties ob) (Some None) (native ob).

(** What the constructor needs from the controller: an object manager,
    and every cached accessor held by a live strong handle. *)
Definition controller_ok (h : Heap) : Prop :=
  is_Some (m_objectManager (thiz h)) ∧
  (∀ p, m_poGetterFunc (thiz h) = Some p →
        ∃ f, persistents h !! p = Some (mkPersistent (Some f) None)) ∧
  (∀ p, m_poClearFunc (thiz h) = Some p →
        ∃ f, persistents h !! p = Some (mkPersistent (Some f) None)).

(** The hidden slot of the holder [ho] of the record [st] at [cs]:
    absent, or the target handle of the record; [pending] is the holder
    under construction with its record, whose slot is not written yet. *)
Definition slot_ok (pending : option (addr * addr)) (ho cs : addr) (ob : JSObject)
    (st : CallbackState) : Prop :=
  hidden_target ob = Some None ∨ hidden_target ob = Some (target st) ∨
  (pending = Some (ho, cs) ∧ hidden_target ob = None).

(** The field of a record a weak callback is paired with. *)
Definition field (cb : WeakCallback) (st : CallbackState) : ptr :=
  match cb with
  | cbWeakTargetCallback => target st
  | cbWeakHolderCallback => holder st
  end.

Record heap_inv (pending : option (addr * addr)) (h : Heap) : Prop := mk_heap_inv {
  inv_target : ∀ cs st pT,
    states h !! cs = Some st → target st = Some pT →
    ∃ x, persistents h !! pT = Some (mkPersistent x (Some (cs, cbWeakTargetCallback)));
  inv_holder : ∀ cs st pH,
    states h !! cs = Some st → holder st = Some pH →
    ∃ ho ob,
      persistents h !! pH = Some (mkPersistent (Some ho) (Some (cs, cbWeakHolderCallback))) ∧
      objects h !! ho = Some ob ∧ slot_ok pending ho cs ob st;
  inv_live : ∀ cs st,
    states h !! cs = Some st → target st ≠ None ∨ holder st ≠ None;
  inv_registered : ∀ p obj cs cb,
    persistents h !! p = Some (mkPersistent obj (Some (cs, cb))) →
    ∃ st, states h !! cs = Some st ∧ field cb st = Some p;
  inv_slot : ∀ o ob p,
    objects h !! o = Some ob → hidden_target ob = Some (Some p) →
    ∃ x cs st pH w,
      persistents h !! p = Some (mkPersistent x (Some (cs, cbWeakTargetCallback))) ∧
      states h !! cs = Some st ∧ holder st = Some pH ∧
      persistents h !! pH = Some (mkPersistent (Some o) w);
  inv_freed_nodup : NoDup (freed h).*1;
  inv_freed : ∀ cs st,
    (cs, st) ∈ freed h → states h !! cs = None ∧ st = mkCallbackState None None;
  inv_controller : controller_ok h
}.

(** How a later heap relates to an earlier one: objects stay, keep their
    native callback and an absent slot stays absent; a record is live or
    logged as freed; the log only grows; a cached accessor stays cached
    and its handle stays as it is. *)
Record evolves (h h' : Heap) : Prop := mk_evolves {
  ev_objects : ∀ o ob,
    objects h !! o = Some ob →
    ∃ ob', objects h' !! o = Some ob' ∧ native ob' = native ob ∧
           (hidden_target ob = Some None → hidden_target ob' = Some None);
  ev_states : ∀ cs,
    is_Some (states h !! cs) →
    is_Some (states h' !! cs) ∨ cs ∈ (freed h').*1;
  ev_freed : freed h `suffix_of` freed h';
  ev_getter : ∀ p c,
    m_poGetterFunc (thiz h) = Some p → persistents h !! p = Some c → weak c = None →
    m_poGetterFunc (thiz h') = Some p ∧ persistents h' !! p = Some c;
  ev_clear : ∀ p c,
    m_poClearFunc (thiz h) = Some p → persistents h !! p = Some c → weak c = None →
    m_poClearFunc (thiz h') = Some p ∧ persistents h' !! p = Some c
}.

(** [h'] is [h] with more objects, none with a hidden slot, and more
    [Persistent] cells, none registered. *)
Record extends (h h' : Heap) : Prop := mk_extends {
  ext_objects : objects h ⊆ objects h';
  ext_new_objects : ∀ o ob,
    objects h' !! o = Some ob → objects h !! o = None → hidden_target ob = None;
  ext_persistents : persistents h ⊆ persistents h';
  ext_new_persistents : ∀ p c,
    persistents h' !! p = Some c → persistents h !! p = None → weak c = None;
  ext_states : states h' = states h;
  ext_freed : freed h' = freed h
}.

(** ** Sample runs *)

(** A target is created and wrapped; the collector visits the holder while
    the target is alive, the script clears the wrapper, the target is
    collected and then the holder. *)
Definition demo_run : list Event :=
  [ eNewObject;
    eConstruct (construct_call [VObject 1%positive]);
    eCollect 2%positive;
    eGet 2%positive;
    eClear 2%positive;
    eCollect 1%positive;
    eGet 2%positive;
    eCollect 2%positive ].

Definition demo_heap : Heap :=
  Eval vm_compute in default boot (exec quiet demo_run boot).

(** The heap after the first event of [demo_run]: one object, not yet
    wrapped. *)
Definition target_heap : Heap :=
  Eval vm_compute in default boot (exec quiet (take 1 demo_run) boot).

(** The heap after the first two events of [demo_run]: one target, one
    wrapper of it. *)
Definition wrapped_heap : Heap :=
  Eval vm_compute in default boot (exec quiet (take 2 demo_run) boot).

(** The same wrapper after the target handle has been finalized. *)
Definition target_gone_heap : Heap :=
  Eval vm_compute in
    default boot (exec quiet [eCollect 1%positive] wrapped_heap).

(** The same wrapper after [clear()] and the finalization of the holder
    handle. *)
Definition holder_gone_heap : Heap :=
  Eval vm_compute in
    default boot (exec quiet [eClear 2%positive; eCollect 2%positive] wrapped_heap).

(** The key of the hidden slot cannot be produced: the call raises. *)
Definition GetTarget_fails : Site → option Fault := λ s,
  if decide (s = sGetTarget) then Some (NativeScriptException "no target key")
  else None.

(** ** Further fault oracles and invariants *)

(** A fault raised, if at all, by the call that produces the key of the
    hidden slot, and by no other call. *)
Definition at_GetTarget (o : option Fault) : Site → option Fault := λ s,
  if decide (s = sGetTarget) then o else None.
Arguments at_GetTarget _ _ /.




(** A computation that leaves the log of leaked handles as it is. *)
Definition keeps_leaked {A} (m : M A) : Prop := ∀ h, leaked (m h).2 = leaked h.

Create HintDb leaks.

(** The cached accessors are function objects around the callback they
    are named after. *)
Definition accessors_ok (h : Heap) : Prop :=
  (∀ p, m_poGetterFunc (thiz h) = Some p →
        ∃ f fo, persistents h !! p = Some (mkPersistent (Some f) None) ∧
                objects h !! f = Some fo ∧ native fo = Some cbGettertCallback) ∧
  (∀ p, m_poClearFunc (thiz h) = Some p →
        ∃ f fo, persistents h !! p = Some (mkPersistent (Some f) None) ∧
                objects h !! f = Some fo ∧ native fo = Some cbClearCallback).

(** A registered handle refers to an object. *)
Definition handles_set (h : Heap) : Prop :=
  ∀ p c, persistents h !! p = Some c → weak c ≠ None → is_Some (referent c).

(** ** Proof support *)

Ltac unfold_m :=
  cbv [WeakTargetCallback WeakHolderCallback ClearCallback GettertCallback
       ConstructorCallback ConstructorCallbackImpl GetGetterFunction GetClearFunction
       WeakTargetCallback_ordered ClearCallback_ordered ConstructorCallback_ordered
       ConstructorCallbackImpl_ordered args2
       no_try try_catch try_catch_no_return mbind M_bind mret M_ret
       read_state write_target write_holder delete_CallbackState deref SetWeak Reset
       delete_Persistent IsEmpty Local_New GetTarget External_New SetHiddenValue GetHiddenValue
       External_Value Null call modify get_heap undefined_behaviour throw
       GetEmptyObject new_Persistent new_CallbackState ConvertToV8String Set_
       FunctionTemplate_New_GetFunction store_m_poGetterFunc store_m_poClearFunc
       set_objects set_persistents set_states set_freed set_leaked set_thiz
       objects persistents states freed leaked thiz target holder referent weak
       hidden_target properties native m_objectManager m_poClearFunc m_poGetterFunc
       This IsConstructCall argv Length arg method_call construct_call plain_call
       ReturnValue_Set absent].

Ltac unfold_ctor :=
  cbv [ConstructorCallback ConstructorCallbackImpl
       ConstructorCallback_ordered ConstructorCallbackImpl_ordered args2
       try_catch mbind M_bind mret M_ret
       deref SetWeak GetTarget External_New SetHiddenValue
       call modify throw
       GetEmptyObject new_Persistent new_CallbackState ConvertToV8String Set_
       set_objects set_persistents set_states set_freed set_leaked set_thiz
       objects persistents states freed leaked thiz target holder referent weak
       hidden_target properties native m_objectManager m_poClearFunc m_poGetterFunc
       This IsConstructCall argv Length arg construct_call plain_call
       ReturnValue_Set empty_object].

Ltac mrun := repeat first
  [ progress simpl
  | rewrite lookup_insert_eq
  | rewrite lookup_delete_eq
  | match goal with H : ?m !! ?k = _ |- context [?m !! ?k] => rewrite H end
  | rewrite lookup_insert_ne by congruence
  | rewrite lookup_delete_ne by congruence ].

(** ** The order of evaluation of arguments *)

(** The order in which the compiled code makes the two argument calls of
    a call shows only when both raise or, in the constructor, when the
    conversion of a property name raises after the accessor has been
    built: in every other case the left-to-right instance is the
    function, whatever the compiler chose. *)
Lemma Init_any_order faults order objectManager h :
  faults (sConvertToV8String "WeakRef") = None ∨ faults sFunctionTemplateNew = None →
  Init_ordered faults order objectManager h = Init faults objectManager h.
Proof.
  intros Hf. destruct order; [done|].
  cbv [Init Init_ordered args2 mbind M_bind mret M_ret modify External_New
       ConvertToV8String call].
  destruct (faults sExternalNew); [done|].
  destruct Hf as [-> | ->]; by repeat case_match.
Qed.

Lemma ConstructorCallbackImpl_any_order faults oget oclear oslot args h :
  faults (sConvertToV8String "get") = None →
  faults (sConvertToV8String "clear") = None →
  faults sGetTarget = None ∨ faults sExternalNew = None →
  ConstructorCallbackImpl_ordered faults oget oclear oslot args h =
    ConstructorCallbackImpl faults args h.
Proof.
  intros Hget Hclear Hslot.
  cbv [ConstructorCallbackImpl ConstructorCallbackImpl_ordered].
  destruct (IsConstructCall args); [|done].
  destruct (decide (Length args = 1)); [|done].
  destruct (IsObject (arg args 0)); [|done].
  cbv [args2 mbind M_bind mret M_ret GetTarget External_New ConvertToV8String call].
  rewrite Hget, Hclear.
  destruct oget, oclear, oslot; try done.
  all: destruct Hslot as [-> | ->]; by repeat case_match.
Qed.

Lemma ConstructorCallback_any_order faults oget oclear oslot args h :
  faults (sConvertToV8String "get") = None →
  faults (sConvertToV8String "clear") = None →
  faults sGetTarget = None ∨ faults sExternalNew = None →
  ConstructorCallback_ordered faults oget oclear oslot args h =
    ConstructorCallback faults args h.
Proof.
  intros Hget Hclear Hslot. unfold ConstructorCallback_ordered, ConstructorCallback, try_catch.
  by rewrite ConstructorCallbackImpl_any_order.
Qed.

Lemma WeakTargetCallback_any_order faults order callbackState h :
  faults sGetTarget = None ∨ faults sExternalNew = None →
  WeakTargetCallback_ordered faults order callbackState h =
    WeakTargetCallback faults callbackState h.
Proof.
  intros Hf. destruct order; [done|].
  cbv [WeakTargetCallback WeakTargetCallback_ordered no_try args2 mbind M_bind mret M_ret
       GetTarget External_New call].
  destruct Hf as [-> | ->]; by repeat case_match.
Qed.

Lemma ClearCallback_any_order faults order args h :
  faults sGetTarget = None ∨ faults sExternalNew = None →
  ClearCallback_ordered faults order args h = ClearCallback faults args h.
Proof.
  intros Hf. destruct order; [done|].
  cbv [ClearCallback ClearCallback_ordered try_catch args2 mbind M_bind mret M_ret
       GetTarget External_New call].
  destruct Hf as [-> | ->]; by repeat case_match.
Qed.

(** ** The finalize handlers *)

Lemma WeakTargetCallback_last h callbackState pT c :
  states h !! callbackState = Some (mkCallbackState (Some pT) None) →
  persistents h !! pT = Some c →
  WeakTargetCallback quiet callbackState h =
    (Returned tt,
     mkHeap (objects h) (delete pT (persistents h)) (delete callbackState (states h))
            ((callbackState, mkCallbackState None None) :: freed h) (leaked h) (thiz h)).
Proof.
  intros Hs Hp. destruct h as [O P S F L W]; simpl in *.
  unfold_m. mrun. by rewrite !delete_insert_eq.
Qed.

Lemma WeakTargetCallback_first h callbackState pT c pH w ho ob :
  states h !! callbackState = Some (mkCallbackState (Some pT) (Some pH)) →
  persistents h !! pT = Some c →
  pH ≠ pT →
  persistents h !! pH = Some (mkPersistent (Some ho) w) →
  objects h !! ho = Some ob →
  WeakTargetCallback quiet callbackState h =
    (Returned tt,
     mkHeap (<[ho := absent ob]> (objects h)) (delete pT (persistents h))
            (<[callbackState := mkCallbackState None (Some pH)]> (states h))
            (freed h) (leaked h) (thiz h)).
Proof.
  intros Hs Hp Hne HpH Ho. destruct h as [O P S F L W]; simpl in *.
  unfold_m. mrun. by rewrite ?delete_insert_eq, ?insert_insert_eq.
Qed.

Lemma GettertCallback_absent h b this vs ob :
  objects h !! this = Some ob → hidden_target ob = Some None →
  GettertCallback quiet (mkArgs b (Some this) vs) h = (Returned VNull, h).
Proof.
  intros Ho Hh. destruct h as [O P S F L W]; destruct ob as [pr hid nat]; simpl in *.
  subst hid. unfold_m. by mrun.
Qed.

Lemma GettertCallback_live h b this vs ob p c :
  objects h !! this = Some ob → hidden_target ob = Some (Some p) →
  persistents h !! p = Some c →
  GettertCallback quiet (mkArgs b (Some this) vs) h =
    (Returned (ReturnValue_Set (referent c)), h).
Proof.
  intros Ho Hh Hp. destruct h as [O P S F L W]; destruct ob as [pr hid nat]; simpl in *.
  subst hid. unfold_m. by mrun.
Qed.

(** C2.  The target-finalize callback, in either order of evaluation of
    the arguments of its [SetHiddenValue], on a record whose target handle
    is [pT] releases [pT] and sets the target field to null: the cell [pT]
    is gone from the heap, and the engine handle it held, whatever the
    cell [c] was, is released by [Reset] before the cell is deleted, so
    that no handle is left in the engine without an owner ([leaked] is as
    before).  If the holder field is already null the record is deleted
    and logged as freed; if the holder handle [pH] is still there, the
    hidden slot of the holder object becomes the absent sentinel, the
    record stays with its target field null, and [get()] on the holder
    returns null from then on. *)
Theorem WeakTargetCallback_effect :
  (∀ order h callbackState pT c,
     states h !! callbackState = Some (mkCallbackState (Some pT) None) →
     persistents h !! pT = Some c →
     ∃ h', WeakTargetCallback_ordered quiet order callbackState h = (Returned tt, h') ∧
       persistents h' = delete pT (persistents h) ∧ leaked h' = leaked h ∧
       states h' = delete callbackState (states h) ∧
       freed h' = (callbackState, mkCallbackState None None) :: freed h ∧
       objects h' = objects h ∧ thiz h' = thiz h) ∧
  (∀ order h callbackState pT c pH w ho ob,
     states h !! callbackState = Some (mkCallbackState (Some pT) (Some pH)) →
     persistents h !! pT = Some c →
     pH ≠ pT →
     persistents h !! pH = Some (mkPersistent (Some ho) w) →
     objects h !! ho = Some ob →
     ∃ h', WeakTargetCallback_ordered quiet order callbackState h = (Returned tt, h') ∧
       persistents h' = delete pT (persistents h) ∧ leaked h' = leaked h ∧
       states h' = <[callbackState := mkCallbackState None (Some pH)]> (states h) ∧
       objects h' = <[ho := absent ob]> (objects h) ∧
       freed h' = freed h ∧ thiz h' = thiz h ∧
       GettertCallback quiet (method_call ho) h' = (Returned VNull, h')).
Proof.
  split.
  - intros order h cs pT c Hs Hp. eexists. split.
    + rewrite WeakTargetCallback_any_order by (by left).
      by eapply WeakTargetCallback_last.
    + done.
  - intros order h cs pT c pH w ho ob Hs Hp Hne HpH Ho. eexists. split.
    + rewrite WeakTargetCallback_any_order by (by left).
      by eapply WeakTargetCallback_first.
    + repeat split. eapply GettertCallback_absent; simpl.
      * apply lookup_insert_eq.
      * done.
Qed.

Lemma WeakHolderCallback_rearm h callbackState st pH w ho ob pT :
  states h !! callbackState = Some st → holder st = Some pH →
  persistents h !! pH = Some (mkPersistent (Some ho) w) →
  objects h !! ho = Some ob → hidden_target ob = Some (Some pT) →
  WeakHolderCallback quiet callbackState h =
    (Returned tt,
     set_persistents
       <[pH := mkPersistent (Some ho) (Some (callbackState, cbWeakHolderCallback))]> h).
Proof.
  intros Hs Hh Hp Ho Hhid.
  destruct h as [O P S F L W]; destruct st as [t hd]; destruct ob as [pr hid nat].
  simpl in *. subst hd hid. unfold_m. by mrun.
Qed.

Lemma WeakHolderCallback_release h callbackState st pH w ho ob :
  states h !! callbackState = Some st → holder st = Some pH →
  persistents h !! pH = Some (mkPersistent (Some ho) w) →
  objects h !! ho = Some ob → hidden_target ob = Some None →
  WeakHolderCallback quiet callbackState h =
    (Returned tt,
     match target st with
     | None =>
         mkHeap (objects h) (delete pH (persistents h))
                (delete callbackState (states h))
                ((callbackState, mkCallbackState None None) :: freed h) (leaked h) (thiz h)
     | Some pT =>
         mkHeap (objects h) (delete pH (persistents h))
                (<[callbackState := mkCallbackState (Some pT) None]> (states h))
                (freed h) (leaked h) (thiz h)
     end).
Proof.
  intros Hs Hh Hp Ho Hhid.
  destruct h as [O P S F L W]; destruct st as [t hd]; destruct ob as [pr hid nat].
  simpl in *. subst hd hid. unfold_m. mrun.
  destruct t; mrun; by rewrite ?delete_insert_eq, ?insert_insert_eq.
Qed.

Lemma collect_rearm h callbackState st pH ho ob pT :
  states h !! callbackState = Some st → holder st = Some pH →
  persistents h !! pH =
    Some (mkPersistent (Some ho) (Some (callbackState, cbWeakHolderCallback))) →
  objects h !! ho = Some ob → hidden_target ob = Some (Some pT) →
  collect quiet pH h = (Returned tt, h).
Proof.
  intros Hs Hh Hp Ho Hhid. unfold collect. rewrite Hp.
  erewrite WeakHolderCallback_rearm; eauto.
  - destruct h as [O P S F L W]. unfold set_persistents. simpl in *.
    by rewrite insert_insert_eq, insert_id.
  - simpl. apply lookup_insert_eq.
Qed.

(** C3.  The holder-finalize callback on a record whose holder handle is
    [pH], referring to the holder object [ho].  If the hidden slot of [ho]
    holds a target handle, the callback registers itself again on [pH]
    with the same record: the registration of [pH] is the only thing it
    writes, and a collector pass over a registered [pH] leaves the whole
    heap as it was.  If the slot holds the absent sentinel, [pH] is
    released and the holder field set to null: the cell [pH] is gone from
    the heap, and the engine handle it held is released by [Reset] before
    the cell is deleted, so that no handle is left in the engine without
    an owner ([leaked] is as before).  The record is deleted and logged
    as freed when its target field is null, and is kept, with its target
    field untouched, when it is not. *)
Theorem WeakHolderCallback_effect :
  (∀ h callbackState st pH w ho ob pT,
     states h !! callbackState = Some st → holder st = Some pH →
     persistents h !! pH = Some (mkPersistent (Some ho) w) →
     objects h !! ho = Some ob → hidden_target ob = Some (Some pT) →
     ∃ h', WeakHolderCallback quiet callbackState h = (Returned tt, h') ∧
       persistents h' =
         <[pH := mkPersistent (Some ho) (Some (callbackState, cbWeakHolderCallback))]>
           (persistents h) ∧
       states h' = states h ∧ objects h' = objects h ∧
       freed h' = freed h ∧ leaked h' = leaked h ∧ thiz h' = thiz h ∧
       (w = Some (callbackState, cbWeakHolderCallback) →
        h' = h ∧ collect quiet pH h = (Returned tt, h))) ∧
  (∀ h callbackState st pH w ho ob,
     states h !! callbackState = Some st → holder st = Some pH →
     persistents h !! pH = Some (mkPersistent (Some ho) w) →
     objects h !! ho = Some ob → hidden_target ob = Some None →
     ∃ h', WeakHolderCallback quiet callbackState h = (Returned tt, h') ∧
       persistents h' = delete pH (persistents h) ∧ leaked h' = leaked h ∧
       objects h' = objects h ∧ thiz h' = thiz h ∧
       match target st with
       | None =>
           states h' = delete callbackState (states h) ∧
           freed h' = (callbackState, mkCallbackState None None) :: freed h
       | Some pT =>
           states h' = <[callbackState := mkCallbackState (Some pT) None]> (states h) ∧
           freed h' = freed h
       end).
Proof.
  split.
  - intros h cs st pH w ho ob pT Hs Hh Hp Ho Hhid. eexists. split.
    + by eapply WeakHolderCallback_rearm.
    + do 6 (split; [done|]). intros ->. split.
      * destruct h as [O P S F L W]. unfold set_persistents. simpl in *.
        by rewrite insert_id.
      * by eapply collect_rearm.
  - intros h cs st pH w ho ob Hs Hh Hp Ho Hhid. eexists. split.
    + by eapply WeakHolderCallback_release.
    + by destruct (target st).
Qed.

(** ** The accessors *)

Lemma ClearCallback_spec h b this vs ob :
  objects h !! this = Some ob →
  ClearCallback quiet (mkArgs b (Some this) vs) h =
    (Returned VUndefined, set_objects <[this := absent ob]> h).
Proof.
  intros Ho. destruct h as [O P S F L W]. simpl in *. unfold_m. by mrun.
Qed.

(** C8.  [clear()] on an object of the heap, whatever the state of the
    records and handles: the hidden slot of the receiver becomes the
    absent sentinel and the call returns [undefined]; the properties and
    the native callback of the receiver, every other object, every
    [Persistent] cell with its weak registration, every [CallbackState],
    the logs of freed records and of leaked handles and the controller
    are as before. *)
Theorem ClearCallback_frame h b this vs ob :
  objects h !! this = Some ob →
  ∃ h', ClearCallback quiet (mkArgs b (Some this) vs) h = (Returned VUndefined, h') ∧
    objects h' = <[this := absent ob]> (objects h) ∧
    hidden_target (absent ob) = Some None ∧
    properties (absent ob) = properties ob ∧ native (absent ob) = native ob ∧
    persistents h' = persistents h ∧ states h' = states h ∧
    freed h' = freed h ∧ leaked h' = leaked h ∧ thiz h' = thiz h.
Proof.
  intros Ho. eexists. split; [by apply ClearCallback_spec|done].
Qed.

(** ** Preservation of well-formedness *)

Lemma extends_refl h : extends h h.
Proof. split; try done. all: intros; congruence. Qed.

Lemma extends_trans h1 h2 h3 : extends h1 h2 → extends h2 h3 → extends h1 h3.
Proof.
  intros [A1 B1 C1 D1 E1 F1] [A2 B2 C2 D2 E2 F2]. split.
  - by etrans.
  - intros o ob H3 H1. destruct (objects h2 !! o) as [ob2|] eqn:H2.
    + pose proof (lookup_weaken _ _ _ _ H2 A2) as H3'.
      rewrite H3 in H3'. simplify_eq. eauto.
    + eauto.
  - by etrans.
  - intros p c H3 H1. destruct (persistents h2 !! p) as [c2|] eqn:H2.
    + pose proof (lookup_weaken _ _ _ _ H2 C2) as H3'.
      rewrite H3 in H3'. simplify_eq. eauto.
    + eauto.
  - congruence.
  - congruence.
Qed.

Lemma heap_inv_extends pd h h' :
  heap_inv pd h → extends h h' → controller_ok h' → heap_inv pd h'.
Proof.
  intros [It Ih Il Ir Is Fn Ff Ic] [Eo Eno Ep Enp Es Ef] Hc. split.
  - intros cs st pT Hs Ht. rewrite Es in Hs.
    destruct (It _ _ _ Hs Ht) as [x Hx]. exists x. by eapply lookup_weaken.
  - intros cs st pH Hs Hh. rewrite Es in Hs.
    destruct (Ih _ _ _ Hs Hh) as (ho & ob & Hp & Ho & Hsl).
    exists ho, ob. split_and!; [by eapply lookup_weaken|by eapply lookup_weaken|done].
  - intros cs st Hs. rewrite Es in Hs. eauto.
  - intros p obj cs cb Hp. rewrite Es.
    destruct (persistents h !! p) as [c|] eqn:Hp0.
    + pose proof (lookup_weaken _ _ _ _ Hp0 Ep) as Hp'. rewrite Hp in Hp'.
      simplify_eq. eauto.
    + by specialize (Enp _ _ Hp Hp0).
  - intros o ob p Ho Hhid.
    destruct (objects h !! o) as [ob0|] eqn:Ho0.
    + pose proof (lookup_weaken _ _ _ _ Ho0 Eo) as Ho'. rewrite Ho in Ho'.
      simplify_eq. destruct (Is _ _ _ Ho0 Hhid) as (x & cs & st & pH & w & H1 & H2 & H3 & H4).
      exists x, cs, st, pH, w. rewrite Es.
      split_and!; [by eapply lookup_weaken|done|done|by eapply lookup_weaken].
    + specialize (Eno _ _ Ho Ho0). congruence.
  - by rewrite Ef.
  - intros cs st. rewrite Ef, Es. eauto.
  - done.
Qed.

(** Writing a property of an object. *)
Lemma heap_inv_set_property pd h o ob pr :
  heap_inv pd h → objects h !! o = Some ob →
  heap_inv pd (set_objects <[o := mkJSObject pr (hidden_target ob) (native ob)]> h).
Proof.
  intros [It Ih Il Ir Is Fn Ff Ic] Ho. split; simpl; try done.
  - intros cs st pH Hs Hh.
    destruct (Ih _ _ _ Hs Hh) as (ho & ob' & Hp & Ho' & Hsl).
    destruct (decide (ho = o)) as [->|Hne].
    + simplify_eq. eexists _, _. split_and!; [done|apply lookup_insert_eq|done].
    + exists ho, ob'. by rewrite lookup_insert_ne.
  - intros o' ob' p. destruct (decide (o' = o)) as [->|Hne].
    + rewrite lookup_insert_eq. intros [= <-]; simpl. eauto.
    + rewrite lookup_insert_ne by done. eauto.
Qed.

(** [clear()], and the target callback on the holder's slot. *)
Lemma heap_inv_absent pd h o ob :
  heap_inv pd h → objects h !! o = Some ob →
  heap_inv pd (set_objects <[o := absent ob]> h).
Proof.
  intros [It Ih Il Ir Is Fn Ff Ic] Ho. split; simpl; try done.
  - intros cs st pH Hs Hh.
    destruct (Ih _ _ _ Hs Hh) as (ho & ob' & Hp & Ho' & Hsl).
    destruct (decide (ho = o)) as [->|Hne].
    + simplify_eq. eexists _, _. split_and!; [done|apply lookup_insert_eq|by left].
    + exists ho, ob'. by rewrite lookup_insert_ne.
  - intros o' ob' p. destruct (decide (o' = o)) as [->|Hne].
    + rewrite lookup_insert_eq. by intros [= <-].
    + rewrite lookup_insert_ne by done. eauto.
Qed.

(** The constructor's registration of a fresh pair of handles with a
    fresh record. *)
Lemma heap_inv_register h r ob pT pH x cs :
  heap_inv None h →
  objects h !! r = Some ob → hidden_target ob = None →
  pT ≠ pH →
  persistents h !! pT = Some (mkPersistent x None) →
  persistents h !! pH = Some (mkPersistent (Some r) None) →
  states h !! cs = None → cs ∉ (freed h).*1 →
  m_poGetterFunc (thiz h) ≠ Some pT → m_poGetterFunc (thiz h) ≠ Some pH →
  m_poClearFunc (thiz h) ≠ Some pT → m_poClearFunc (thiz h) ≠ Some pH →
  heap_inv (Some (r, cs))
    (mkHeap (objects h)
       (<[pH := mkPersistent (Some r) (Some (cs, cbWeakHolderCallback))]>
          (<[pT := mkPersistent x (Some (cs, cbWeakTargetCallback))]> (persistents h)))
       (<[cs := mkCallbackState (Some pT) (Some pH)]> (states h))
       (freed h) (leaked h) (thiz h)).
Proof.
  intros [It Ih Il Ir Is Fn Ff Ic] Ho Hhid Hne HpT HpH Hcs Hfr G1 G2 C1 C2.
  split; simpl; try done.
  - intros cs' st pT'. destruct (decide (cs' = cs)) as [->|Hc].
    + rewrite lookup_insert_eq. intros [= <-] [= <-]. exists x.
      rewrite lookup_insert_ne by done. apply lookup_insert_eq.
    + rewrite lookup_insert_ne by done. intros Hs Ht.
      destruct (It _ _ _ Hs Ht) as [x' Hx']. exists x'.
      rewrite !lookup_insert_ne by congruence. done.
  - intros cs' st pH'. destruct (decide (cs' = cs)) as [->|Hc].
    + rewrite lookup_insert_eq. intros [= <-] [= <-]. exists r, ob.
      split_and!; [apply lookup_insert_eq|done|]. right; right. done.
    + rewrite lookup_insert_ne by done. intros Hs Hh.
      destruct (Ih _ _ _ Hs Hh) as (ho & ob' & Hp & Ho' & Hsl). exists ho, ob'.
      rewrite !lookup_insert_ne by congruence. split_and!; try done.
      destruct Hsl as [?|[?|[? _]]]; [by left|by right; left|done].
  - intros cs' st. destruct (decide (cs' = cs)) as [->|Hc].
    + rewrite lookup_insert_eq. intros [= <-]. by left.
    + rewrite lookup_insert_ne by done. eauto.
  - intros p obj cs' cb. destruct (decide (p = pH)) as [->|HnH].
    { rewrite lookup_insert_eq. intros ?; simplify_eq. eexists. by rewrite lookup_insert_eq. }
    rewrite lookup_insert_ne by done. destruct (decide (p = pT)) as [->|HnT].
    { rewrite lookup_insert_eq. intros ?; simplify_eq. eexists. by rewrite lookup_insert_eq. }
    rewrite lookup_insert_ne by done. intros Hp.
    destruct (Ir _ _ _ _ Hp) as (st & Hs & Hf). exists st.
    rewrite lookup_insert_ne by congruence. done.
  - intros o ob' p Ho' Hh'.
    destruct (Is _ _ _ Ho' Hh') as (x' & cs' & st & pH' & w & H1 & H2 & H3 & H4).
    assert (cs' ≠ cs) by congruence.
    destruct (Ih _ _ _ H2 H3) as (ho & ob0 & H5 & _).
    exists x', cs', st, pH', w. rewrite !lookup_insert_ne by congruence. done.
  - intros cs' st Hin. destruct (Ff _ _ Hin) as [Hn ->]. split; [|done].
    rewrite lookup_insert_ne; [done|]. intros ->. apply Hfr.
    apply list_elem_of_fmap. by exists (cs', mkCallbackState None None).
  - destruct Ic as (Hom & Hg & Hc). unfold controller_ok; simpl. split_and!; [done| |].
    + intros p Hp. destruct (Hg _ Hp) as [f Hf]. exists f.
      rewrite !lookup_insert_ne by congruence. done.
    + intros p Hp. destruct (Hc _ Hp) as [f Hf]. exists f.
      rewrite !lookup_insert_ne by congruence. done.
Qed.

(** The constructor's write of the target handle into the hidden slot. *)
Lemma heap_inv_init_slot h r cs ob pT x st pH w :
  heap_inv (Some (r, cs)) h →
  objects h !! r = Some ob → hidden_target ob = None →
  persistents h !! pT = Some (mkPersistent x (Some (cs, cbWeakTargetCallback))) →
  states h !! cs = Some st → holder st = Some pH →
  persistents h !! pH = Some (mkPersistent (Some r) w) →
  heap_inv None
    (set_objects <[r := mkJSObject (properties ob) (Some (Some pT)) (native ob)]> h).
Proof.
  intros [It Ih Il Ir Is Fn Ff Ic] Ho Hhid HpT Hs Hh HpH.
  destruct (Ir _ _ _ _ HpT) as (st' & Hs' & Ht). simplify_eq. simpl in Ht.
  split; simpl; try done.
  - intros cs' st' pH' Hs' Hh'.
    destruct (Ih _ _ _ Hs' Hh') as (ho & ob' & Hp & Ho' & Hsl).
    destruct (decide (ho = r)) as [->|Hne].
    + simplify_eq. eexists _, _. split_and!; [done|apply lookup_insert_eq|].
      simpl. destruct Hsl as [?|[?|[? _]]]; [congruence|congruence|].
      simplify_eq. right; left. simpl. congruence.
    + exists ho, ob'. rewrite lookup_insert_ne by done. split_and!; try done.
      destruct Hsl as [?|[?|[? _]]]; [by left|by right; left|congruence].
  - intros o ob' p. destruct (decide (o = r)) as [->|Hne].
    + rewrite lookup_insert_eq. intros [= <-]; simpl. intros [= <-].
      by exists x, cs, st, pH, w.
    + rewrite lookup_insert_ne by done. eauto.
Qed.

(** The last of the two handles of a record is released and the record
    deleted. *)
Lemma heap_inv_release_last h p obj cs cb st :
  heap_inv None h →
  persistents h !! p = Some (mkPersistent obj (Some (cs, cb))) →
  states h !! cs = Some st →
  target st = None ∨ holder st = None →
  heap_inv None
    (mkHeap (objects h) (delete p (persistents h)) (delete cs (states h))
            ((cs, mkCallbackState None None) :: freed h) (leaked h) (thiz h)).
Proof.
  intros [It Ih Il Ir Is Fn Ff Ic] Hp Hs Hnone.
  destruct (Ir _ _ _ _ Hp) as (st' & Hs' & Hf). simplify_eq.
  assert (Hother : ∀ p' obj' cb',
    persistents h !! p' = Some (mkPersistent obj' (Some (cs, cb'))) → p' = p).
  { intros p' obj' cb' Hp'. destruct (Ir _ _ _ _ Hp') as (st' & Hs' & Hf').
    simplify_eq. destruct cb, cb', Hnone; simpl in *; congruence. }
  split; simpl.
  - intros cs' st' pT. destruct (decide (cs' = cs)) as [->|Hc].
    { by rewrite lookup_delete_eq. }
    rewrite lookup_delete_ne by done. intros Hs' Ht.
    destruct (It _ _ _ Hs' Ht) as [x Hx]. exists x.
    rewrite lookup_delete_ne; [done|]. intros <-. congruence.
  - intros cs' st' pH. destruct (decide (cs' = cs)) as [->|Hc].
    { by rewrite lookup_delete_eq. }
    rewrite lookup_delete_ne by done. intros Hs' Hh.
    destruct (Ih _ _ _ Hs' Hh) as (ho & ob & Hp' & Ho & Hsl). exists ho, ob.
    rewrite lookup_delete_ne; [done|]. intros <-. congruence.
  - intros cs' st'. destruct (decide (cs' = cs)) as [->|Hc].
    { by rewrite lookup_delete_eq. }
    rewrite lookup_delete_ne by done. eauto.
  - intros p' obj' cs' cb'. destruct (decide (p' = p)) as [->|Hn].
    { by rewrite lookup_delete_eq. }
    rewrite lookup_delete_ne by done. intros Hp'.
    destruct (Ir _ _ _ _ Hp') as (st' & Hs' & Hf'). exists st'.
    rewrite lookup_delete_ne; [done|]. intros <-. by apply Hn, (Hother _ _ _ Hp').
  - intros o ob p' Ho Hhid.
    destruct (Is _ _ _ Ho Hhid) as (x & cs' & st' & pH & w & H1 & H2 & H3 & H4).
    destruct (Ir _ _ _ _ H1) as (st2 & Hs2 & Hf2). simplify_eq. simpl in Hf2.
    assert (cs' ≠ cs).
    { intros ->. simplify_eq. destruct Hnone; congruence. }
    destruct (Ih _ _ _ H2 H3) as (ho & ob0 & H5 & _).
    exists x, cs', st', pH, w.
    rewrite !lookup_delete_ne by congruence. done.
  - rewrite NoDup_cons. split; [|done].
    intros [[cs' st'] [? Hin]]%list_elem_of_fmap. simpl in *. subst cs'.
    destruct (Ff _ _ Hin). congruence.
  - intros cs' st' [?|Hin]%elem_of_cons.
    + simplify_eq. by rewrite lookup_delete_eq.
    + destruct (Ff _ _ Hin) as [Hn ->]. split; [|done].
      destruct (decide (cs' = cs)) as [->|Hc];
        [by rewrite lookup_delete_eq|by rewrite lookup_delete_ne].
  - destruct Ic as (Hom & Hg & Hc). unfold controller_ok; simpl. split_and!; [done| |].
    + intros q Hq. destruct (Hg _ Hq) as [f Hf']. exists f.
      rewrite lookup_delete_ne; [done|]. intros <-. congruence.
    + intros q Hq. destruct (Hc _ Hq) as [f Hf']. exists f.
      rewrite lookup_delete_ne; [done|]. intros <-. congruence.
Qed.

(** The target handle is released while the holder handle stays; the
    holder's slot is absent by then. *)
Lemma heap_inv_release_target h p obj cs pH w ho ob :
  heap_inv None h →
  persistents h !! p = Some (mkPersistent obj (Some (cs, cbWeakTargetCallback))) →
  states h !! cs = Some (mkCallbackState (Some p) (Some pH)) →
  persistents h !! pH = Some (mkPersistent (Some ho) w) →
  objects h !! ho = Some ob → hidden_target ob = Some None →
  heap_inv None
    (mkHeap (objects h) (delete p (persistents h))
            (<[cs := mkCallbackState None (Some pH)]> (states h)) (freed h) (leaked h) (thiz h)).
Proof.
  intros [It Ih Il Ir Is Fn Ff Ic] Hp Hs HpH Ho Hhid.
  destruct (Ih _ _ _ Hs eq_refl) as (ho0 & ob0 & HpH' & _).
  rewrite HpH in HpH'. injection HpH' as <- ->. clear ob0.
  split; simpl; try done.
  - intros cs' st' pT. destruct (decide (cs' = cs)) as [->|Hc].
    { rewrite lookup_insert_eq. by intros [= <-]. }
    rewrite lookup_insert_ne by done. intros Hs' Ht.
    destruct (It _ _ _ Hs' Ht) as [x Hx]. exists x.
    rewrite lookup_delete_ne; [done|]. intros <-. congruence.
  - intros cs' st' pH'. destruct (decide (cs' = cs)) as [->|Hc].
    { rewrite lookup_insert_eq. intros [= <-] [= <-]. exists ho, ob.
      rewrite lookup_delete_ne by congruence. split_and!; [done|done|by left]. }
    rewrite lookup_insert_ne by done. intros Hs' Hh.
    destruct (Ih _ _ _ Hs' Hh) as (ho' & ob' & Hp' & Ho' & Hsl). exists ho', ob'.
    rewrite lookup_delete_ne; [done|]. intros <-. congruence.
  - intros cs' st'. destruct (decide (cs' = cs)) as [->|Hc].
    { rewrite lookup_insert_eq. intros [= <-]. by right. }
    rewrite lookup_insert_ne by done. eauto.
  - intros p' obj' cs' cb'. destruct (decide (p' = p)) as [->|Hn].
    { by rewrite lookup_delete_eq. }
    rewrite lookup_delete_ne by done. intros Hp'.
    destruct (Ir _ _ _ _ Hp') as (st' & Hs' & Hf').
    destruct (decide (cs' = cs)) as [->|Hc].
    + simplify_eq. eexists. rewrite lookup_insert_eq. split; [done|].
      destruct cb'; simpl in *; congruence.
    + exists st'. by rewrite lookup_insert_ne.
  - intros o ob' p' Ho' Hhid'.
    destruct (Is _ _ _ Ho' Hhid') as (x & cs' & st' & pH' & w' & H1 & H2 & H3 & H4).
    destruct (Ir _ _ _ _ H1) as (st2 & Hs2 & Hf2). simplify_eq. simpl in Hf2.
    assert (cs' ≠ cs).
    { intros ->. rewrite Hs in H2. injection H2 as <-. simpl in H3.
      injection H3 as <-. rewrite HpH in H4. injection H4 as <-. congruence. }
    destruct (Ih _ _ _ H2 H3) as (ho' & ob0 & H5 & _).
    exists x, cs', st', pH', w'.
    rewrite !lookup_delete_ne by congruence. by rewrite lookup_insert_ne.
  - intros cs' st' Hin. destruct (Ff _ _ Hin) as [Hn ->]. split; [|done].
    rewrite lookup_insert_ne; [done|]. congruence.
  - destruct Ic as (Hom & Hg & Hc). unfold controller_ok; simpl. split_and!; [done| |].
    + intros q Hq. destruct (Hg _ Hq) as [f Hf']. exists f.
      rewrite lookup_delete_ne; [done|]. intros <-. congruence.
    + intros q Hq. destruct (Hc _ Hq) as [f Hf']. exists f.
      rewrite lookup_delete_ne; [done|]. intros <-. congruence.
Qed.

(** The holder handle is released while the target handle stays; the
    holder's slot is absent by then. *)
Lemma heap_inv_release_holder h p ho cs pT ob :
  heap_inv None h →
  persistents h !! p = Some (mkPersistent (Some ho) (Some (cs, cbWeakHolderCallback))) →
  states h !! cs = Some (mkCallbackState (Some pT) (Some p)) →
  objects h !! ho = Some ob → hidden_target ob = Some None →
  heap_inv None
    (mkHeap (objects h) (delete p (persistents h))
            (<[cs := mkCallbackState (Some pT) None]> (states h)) (freed h) (leaked h) (thiz h)).
Proof.
  intros [It Ih Il Ir Is Fn Ff Ic] Hp Hs Ho Hhid.
  destruct (It _ _ _ Hs eq_refl) as (x & HpT).
  split; simpl; try done.
  - intros cs' st' pT'. destruct (decide (cs' = cs)) as [->|Hc].
    { rewrite lookup_insert_eq. intros [= <-] [= <-]. exists x.
      rewrite lookup_delete_ne by congruence. done. }
    rewrite lookup_insert_ne by done. intros Hs' Ht.
    destruct (It _ _ _ Hs' Ht) as [x' Hx]. exists x'.
    rewrite lookup_delete_ne; [done|]. intros <-. congruence.
  - intros cs' st' pH'. destruct (decide (cs' = cs)) as [->|Hc].
    { rewrite lookup_insert_eq. by intros [= <-]. }
    rewrite lookup_insert_ne by done. intros Hs' Hh.
    destruct (Ih _ _ _ Hs' Hh) as (ho' & ob' & Hp' & Ho' & Hsl). exists ho', ob'.
    rewrite lookup_delete_ne; [done|]. intros <-. congruence.
  - intros cs' st'. destruct (decide (cs' = cs)) as [->|Hc].
    { rewrite lookup_insert_eq. intros [= <-]. by left. }
    rewrite lookup_insert_ne by done. eauto.
  - intros p' obj' cs' cb'. destruct (decide (p' = p)) as [->|Hn].
    { by rewrite lookup_delete_eq. }
    rewrite lookup_delete_ne by done. intros Hp'.
    destruct (Ir _ _ _ _ Hp') as (st' & Hs' & Hf').
    destruct (decide (cs' = cs)) as [->|Hc].
    + simplify_eq. eexists. rewrite lookup_insert_eq. split; [done|].
      destruct cb'; simpl in *; congruence.
    + exists st'. by rewrite lookup_insert_ne.
  - intros o ob' p' Ho' Hhid'.
    destruct (Is _ _ _ Ho' Hhid') as (x' & cs' & st' & pH' & w' & H1 & H2 & H3 & H4).
    assert (cs' ≠ cs).
    { intros ->. rewrite Hs in H2. injection H2 as <-. simpl in H3.
      injection H3 as <-. rewrite Hp in H4. injection H4 as <-. congruence. }
    destruct (Ih _ _ _ H2 H3) as (ho' & ob0 & H5 & _).
    exists x', cs', st', pH', w'.
    rewrite !lookup_delete_ne by congruence. by rewrite lookup_insert_ne.
  - intros cs' st' Hin. destruct (Ff _ _ Hin) as [Hn ->]. split; [|done].
    rewrite lookup_insert_ne; [done|]. congruence.
  - destruct Ic as (Hom & Hg & Hc). unfold controller_ok; simpl. split_and!; [done| |].
    + intros q Hq. destruct (Hg _ Hq) as [f Hf']. exists f.
      rewrite lookup_delete_ne; [done|]. intros <-. congruence.
    + intros q Hq. destruct (Hc _ Hq) as [f Hf']. exists f.
      rewrite lookup_delete_ne; [done|]. intros <-. congruence.
Qed.

(** *** Later heaps *)

Lemma evolves_refl h : evolves h h.
Proof. split; eauto 10. Qed.

Lemma evolves_trans h1 h2 h3 : evolves h1 h2 → evolves h2 h3 → evolves h1 h3.
Proof.
  intros [O1 S1 F1 G1 C1] [O2 S2 F2 G2 C2]. split.
  - intros o ob Ho. destruct (O1 _ _ Ho) as (ob2 & Ho2 & Hn2 & Hh2).
    destruct (O2 _ _ Ho2) as (ob3 & Ho3 & Hn3 & Hh3). exists ob3.
    split_and!; [done|congruence|auto].
  - intros cs Hs. destruct (S1 _ Hs) as [Hs2|Hf2].
    + auto.
    + right. destruct F2 as [k ->]. rewrite fmap_app. apply elem_of_app. by right.
  - by etrans.
  - intros p c Hp Hc Hw. destruct (G1 _ _ Hp Hc Hw). eauto.
  - intros p c Hp Hc Hw. destruct (C1 _ _ Hp Hc Hw). eauto.
Qed.

Lemma evolves_extends h h' :
  extends h h' →
  (∀ q, m_poGetterFunc (thiz h) = Some q → m_poGetterFunc (thiz h') = Some q) →
  (∀ q, m_poClearFunc (thiz h) = Some q → m_poClearFunc (thiz h') = Some q) →
  evolves h h'.
Proof.
  intros [Eo Eno Ep Enp Es Ef] Hg Hc. split.
  - intros o ob Ho. exists ob. split_and!; [by eapply lookup_weaken|done|done].
  - intros cs Hs. left. by rewrite Es.
  - by rewrite Ef.
  - intros p c Hp Hl _. split; [auto|by eapply lookup_weaken].
  - intros p c Hp Hl _. split; [auto|by eapply lookup_weaken].
Qed.

Lemma controller_ok_extends h h' :
  controller_ok h → extends h h' → thiz h' = thiz h → controller_ok h'.
Proof.
  intros (Hom & Hg & Hc) [Eo Eno Ep Enp Es Ef] Ht. unfold controller_ok.
  rewrite Ht. split_and!; [done| |].
  - intros p Hp. destruct (Hg _ Hp) as [f Hf]. exists f. by eapply lookup_weaken.
  - intros p Hp. destruct (Hc _ Hp) as [f Hf]. exists f. by eapply lookup_weaken.
Qed.

Lemma fresh_lookup {A} (m : gmap positive A) : m !! fresh (dom m) = None.
Proof. apply not_elem_of_dom, is_fresh. Qed.

Lemma extends_alloc_object h ob :
  hidden_target ob = None →
  extends h (set_objects <[fresh (dom (objects h)) := ob]> h).
Proof.
  intros Hhid. split; simpl; try done.
  - apply insert_subseteq, fresh_lookup.
  - intros o ob' Ho Hn. destruct (decide (o = fresh (dom (objects h)))) as [->|Hne].
    + rewrite lookup_insert_eq in Ho. congruence.
    + rewrite lookup_insert_ne in Ho by done. congruence.
  - intros; congruence.
Qed.

Lemma extends_alloc_persistent h obj :
  extends h (set_persistents <[fresh (dom (persistents h)) := mkPersistent obj None]> h).
Proof.
  split; simpl; try done.
  - intros; congruence.
  - apply insert_subseteq, fresh_lookup.
  - intros p c Hp Hn. destruct (decide (p = fresh (dom (persistents h)))) as [->|Hne].
    + rewrite lookup_insert_eq in Hp. by simplify_eq.
    + rewrite lookup_insert_ne in Hp by done. congruence.
Qed.

(** *** The accessor caches *)

Lemma GetGetterFunction_cached h p f w :
  m_poGetterFunc (thiz h) = Some p →
  persistents h !! p = Some (mkPersistent f w) →
  GetGetterFunction quiet h = (Ok f, h).
Proof.
  intros Hm Hp. destruct h as [O P S F L [om pc pg]]. simpl in *. subst pg.
  unfold_m. by mrun.
Qed.

Lemma GetGetterFunction_first h :
  m_poGetterFunc (thiz h) = None →
  GetGetterFunction quiet h =
    (Ok (Some (fresh (dom (objects h)))),
     mkHeap (<[fresh (dom (objects h)) := mkJSObject ∅ None (Some cbGettertCallback)]>
               (objects h))
            (<[fresh (dom (persistents h)) :=
                 mkPersistent (Some (fresh (dom (objects h)))) None]> (persistents h))
            (states h) (freed h) (leaked h)
            (mkWeakRef (m_objectManager (thiz h)) (m_poClearFunc (thiz h))
                       (Some (fresh (dom (persistents h)))))).
Proof.
  intros Hm. destruct h as [O P S F L [om pc pg]]. simpl in *. subst pg.
  unfold_m. by mrun.
Qed.

Lemma GetClearFunction_cached h p f w :
  m_poClearFunc (thiz h) = Some p →
  persistents h !! p = Some (mkPersistent f w) →
  GetClearFunction quiet h = (Ok f, h).
Proof.
  intros Hm Hp. destruct h as [O P S F L [om pc pg]]. simpl in *. subst pc.
  unfold_m. by mrun.
Qed.

Lemma GetClearFunction_first h :
  m_poClearFunc (thiz h) = None →
  GetClearFunction quiet h =
    (Ok (Some (fresh (dom (objects h)))),
     mkHeap (<[fresh (dom (objects h)) := mkJSObject ∅ None (Some cbClearCallback)]>
               (objects h))
            (<[fresh (dom (persistents h)) :=
                 mkPersistent (Some (fresh (dom (objects h)))) None]> (persistents h))
            (states h) (freed h) (leaked h)
            (mkWeakRef (m_objectManager (thiz h))
                       (Some (fresh (dom (persistents h)))) (m_poGetterFunc (thiz h)))).
Proof.
  intros Hm. destruct h as [O P S F L [om pc pg]]. simpl in *. subst pc.
  unfold_m. by mrun.
Qed.

Lemma GetGetterFunction_spec h :
  controller_ok h →
  ∃ g pg h',
    GetGetterFunction quiet h = (Ok (Some g), h') ∧
    extends h h' ∧ controller_ok h' ∧
    m_poGetterFunc (thiz h') = Some pg ∧
    persistents h' !! pg = Some (mkPersistent (Some g) None) ∧
    m_poClearFunc (thiz h') = m_poClearFunc (thiz h) ∧
    (∀ q, m_poGetterFunc (thiz h) = Some q → q = pg).
Proof.
  intros Hok. pose proof Hok as (Hom & Hg & Hc).
  destruct (m_poGetterFunc (thiz h)) as [p|] eqn:Hm.
  - destruct (Hg _ eq_refl) as [f Hf]. exists f, p, h.
    rewrite (GetGetterFunction_cached _ _ _ _ Hm Hf).
    split_and!; try done.
    + apply extends_refl.
    + congruence.
  - rewrite (GetGetterFunction_first _ Hm). eexists _, _, _. split; [done|].
    assert (Hext : extends h
      (mkHeap (<[fresh (dom (objects h)) := mkJSObject ∅ None (Some cbGettertCallback)]>
               (objects h))
            (<[fresh (dom (persistents h)) :=
                 mkPersistent (Some (fresh (dom (objects h)))) None]> (persistents h))
            (states h) (freed h) (leaked h)
            (mkWeakRef (m_objectManager (thiz h)) (m_poClearFunc (thiz h))
                       (Some (fresh (dom (persistents h))))))).
    { split; simpl; try done.
      - apply insert_subseteq, fresh_lookup.
      - intros o ob Ho Hn. destruct (decide (o = fresh (dom (objects h)))) as [->|Hne].
        + rewrite lookup_insert_eq in Ho. by simplify_eq.
        + rewrite lookup_insert_ne in Ho by done. congruence.
      - apply insert_subseteq, fresh_lookup.
      - intros p c Hp Hn.
        destruct (decide (p = fresh (dom (persistents h)))) as [->|Hne].
        + rewrite lookup_insert_eq in Hp. by simplify_eq.
        + rewrite lookup_insert_ne in Hp by done. congruence. }
    split_and!; simpl; try done.
    + unfold controller_ok; simpl. split_and!; [done| |].
      * intros p [= <-]. eexists. apply lookup_insert_eq.
      * intros p Hp. destruct (Hc _ Hp) as [f Hf]. exists f.
        rewrite lookup_insert_ne; [done|]. intros Heq.
        pose proof (fresh_lookup (persistents h)) as Hfr. congruence.
    + apply lookup_insert_eq.
Qed.

Lemma GetClearFunction_spec h :
  controller_ok h →
  ∃ c pc h',
    GetClearFunction quiet h = (Ok (Some c), h') ∧
    extends h h' ∧ controller_ok h' ∧
    m_poClearFunc (thiz h') = Some pc ∧
    persistents h' !! pc = Some (mkPersistent (Some c) None) ∧
    m_poGetterFunc (thiz h') = m_poGetterFunc (thiz h) ∧
    (∀ q, m_poClearFunc (thiz h) = Some q → q = pc).
Proof.
  intros Hok. pose proof Hok as (Hom & Hg & Hc).
  destruct (m_poClearFunc (thiz h)) as [p|] eqn:Hm.
  - destruct (Hc _ eq_refl) as [f Hf]. exists f, p, h.
    rewrite (GetClearFunction_cached _ _ _ _ Hm Hf).
    split_and!; try done.
    + apply extends_refl.
    + congruence.
  - rewrite (GetClearFunction_first _ Hm). eexists _, _, _. split; [done|].
    assert (Hext : extends h
      (mkHeap (<[fresh (dom (objects h)) := mkJSObject ∅ None (Some cbClearCallback)]>
               (objects h))
            (<[fresh (dom (persistents h)) :=
                 mkPersistent (Some (fresh (dom (objects h)))) None]> (persistents h))
            (states h) (freed h) (leaked h)
            (mkWeakRef (m_objectManager (thiz h))
                       (Some (fresh (dom (persistents h)))) (m_poGetterFunc (thiz h))))).
    { split; simpl; try done.
      - apply insert_subseteq, fresh_lookup.
      - intros o ob Ho Hn. destruct (decide (o = fresh (dom (objects h)))) as [->|Hne].
        + rewrite lookup_insert_eq in Ho. by simplify_eq.
        + rewrite lookup_insert_ne in Ho by done. congruence.
      - apply insert_subseteq, fresh_lookup.
      - intros p c Hp Hn.
        destruct (decide (p = fresh (dom (persistents h)))) as [->|Hne].
        + rewrite lookup_insert_eq in Hp. by simplify_eq.
        + rewrite lookup_insert_ne in Hp by done. congruence. }
    split_and!; simpl; try done.
    + unfold controller_ok; simpl. split_and!; [done| |].
      * intros p Hp. destruct (Hg _ Hp) as [f Hf]. exists f.
        rewrite lookup_insert_ne; [done|]. intros Heq.
        pose proof (fresh_lookup (persistents h)) as Hfr. congruence.
      * intros p [= <-]. eexists. apply lookup_insert_eq.
    + apply lookup_insert_eq.
Qed.

(** *** The constructor *)

Lemma evolves_set_object h o ob ob' :
  objects h !! o = Some ob → native ob' = native ob →
  (hidden_target ob = Some None → hidden_target ob' = Some None) →
  evolves h (set_objects <[o := ob']> h).
Proof.
  intros Ho Hn Hh. split; simpl; eauto.
  intros o' ob0 Ho'. destruct (decide (o' = o)) as [->|Hne].
  - exists ob'. rewrite lookup_insert_eq. split; [done|]. by simplify_eq.
  - exists ob0. by rewrite lookup_insert_ne.
Qed.

Lemma ConstructorCallbackImpl_ok h b x :
  controller_ok h →
  ∃ (r pT pH cs g c pg pc : positive) h',
    ConstructorCallbackImpl quiet (mkArgs true b [VObject x]) h = (Ok (VObject r), h') ∧
    objects h !! r = None ∧ states h !! cs = None ∧ (cs ∉ (freed h).*1) ∧
    objects h' !! r =
      Some (mkJSObject (<["clear" := VObject c]> (<["get" := VObject g]> ∅))
                       (Some (Some pT)) None) ∧
    persistents h' !! pT = Some (mkPersistent (Some x) (Some (cs, cbWeakTargetCallback))) ∧
    persistents h' !! pH = Some (mkPersistent (Some r) (Some (cs, cbWeakHolderCallback))) ∧
    states h' = <[cs := mkCallbackState (Some pT) (Some pH)]> (states h) ∧
    freed h' = freed h ∧
    m_poGetterFunc (thiz h') = Some pg ∧
    persistents h' !! pg = Some (mkPersistent (Some g) None) ∧
    m_poClearFunc (thiz h') = Some pc ∧
    persistents h' !! pc = Some (mkPersistent (Some c) None) ∧
    (∀ q, m_poGetterFunc (thiz h) = Some q → q = pg) ∧
    (∀ q, m_poClearFunc (thiz h) = Some q → q = pc) ∧
    controller_ok h' ∧ evolves h h' ∧
    (heap_inv None h → heap_inv None h').
Proof.
  intros Hok. pose proof Hok as ([om Hom] & Hg & Hc).
  destruct h as [O P S F L [om' pc pg]]. simpl in *. subst om'.
  unfold_ctor. simpl.
  pose proof (fresh_lookup O) as Hr. set (r := fresh (dom O)) in *.
  pose proof (fresh_lookup P) as HpT. set (pT := fresh (dom P)) in *.
  pose proof (fresh_lookup (<[pT := mkPersistent (Some x) None]> P)) as HpH.
  set (pH := fresh (dom (<[pT := mkPersistent (Some x) None]> P))) in *.
  pose proof (is_fresh (dom S ∪ list_to_set F.*1)) as Hcs.
  set (cs := fresh (dom S ∪ list_to_set F.*1)) in *.
  clearbody r pT pH cs.
  assert (pH ≠ pT) as Hne by (intros ->; by rewrite lookup_insert_eq in HpH).
  rewrite lookup_insert_ne in HpH by done.
  assert (S !! cs = None) as HcsS.
  { apply not_elem_of_dom. intros Hin. apply Hcs, elem_of_union. by left. }
  assert (cs ∉ F.*1) as HcsF.
  { intros Hin. apply Hcs, elem_of_union. right. by apply elem_of_list_to_set. }
  clear Hcs.
  set (W := mkWeakRef (Some om) pc pg) in *.
  set (h := mkHeap O P S F L W) in *.
  set (h3 := mkHeap (<[r := mkJSObject ∅ None None]> O)
                (<[pH := mkPersistent (Some r) None]>
                   (<[pT := mkPersistent (Some x) None]> P)) S F L W).
  assert (extends h h3) as E3.
  { split; simpl; try done.
    - by apply insert_subseteq.
    - intros o ob Ho Hn. destruct (decide (o = r)) as [->|?].
      + rewrite lookup_insert_eq in Ho. by simplify_eq.
      + rewrite lookup_insert_ne in Ho by done. congruence.
    - etrans; [|apply insert_subseteq; by rewrite lookup_insert_ne].
      by apply insert_subseteq.
    - intros p c Hp Hn. destruct (decide (p = pH)) as [->|?].
      { rewrite lookup_insert_eq in Hp. by simplify_eq. }
      rewrite lookup_insert_ne in Hp by done. destruct (decide (p = pT)) as [->|?].
      { rewrite lookup_insert_eq in Hp. by simplify_eq. }
      rewrite lookup_insert_ne in Hp by done. congruence. }
  assert (controller_ok h3) as Hok3 by (by eapply controller_ok_extends).
  mrun. match goal with |- context [GetGetterFunction quiet ?hh] => set (h6 := hh) end.
  assert (controller_ok h6) as Hok6.
  { unfold controller_ok; simpl. split_and!; [done| |].
    - intros p Hp. destruct (Hg _ Hp) as [f Hf]. exists f.
      rewrite !lookup_insert_ne by congruence. done.
    - intros p Hp. destruct (Hc _ Hp) as [f Hf]. exists f.
      rewrite !lookup_insert_ne by congruence. done. }
  assert (heap_inv None h → heap_inv (Some (r, cs)) h6) as I6.
  { intros Hinv. apply (heap_inv_register h3 r (mkJSObject ∅ None None) pT pH (Some x) cs);
      simpl; try done.
    - by eapply heap_inv_extends.
    - apply lookup_insert_eq.
    - rewrite lookup_insert_ne by done. apply lookup_insert_eq.
    - apply lookup_insert_eq.
    - intros Hq. destruct (Hg _ Hq) as [f Hf]. congruence.
    - intros Hq. destruct (Hg _ Hq) as [f Hf]. congruence.
    - intros Hq. destruct (Hc _ Hq) as [f Hf]. congruence.
    - intros Hq. destruct (Hc _ Hq) as [f Hf]. congruence. }
  assert (evolves h h6) as V6.
  { split; simpl; try done.
    - intros o ob Ho. exists ob. rewrite lookup_insert_ne by congruence. done.
    - intros cs' Hs. left. rewrite lookup_insert_ne by (intros ->; by destruct Hs; congruence).
      done.
    - intros q c Hq Hl _. split; [done|]. rewrite !lookup_insert_ne by congruence. done.
    - intros q c Hq Hl _. split; [done|]. rewrite !lookup_insert_ne by congruence. done. }
  destruct (GetGetterFunction_spec h6 Hok6)
    as (g & pg' & h7 & -> & E7 & Hok7 & Hg7 & Hpg7 & Hc7 & Hgq).
  assert (objects h7 !! r = Some (mkJSObject ∅ None None)) as Hr7.
  { apply (lookup_weaken _ _ _ _ (lookup_insert_eq _ _ _) (ext_objects _ _ E7)). }
  assert (heap_inv None h → heap_inv (Some (r, cs)) h7) as I7.
  { intros Hinv. apply (heap_inv_extends _ h6 h7 (I6 Hinv) E7 Hok7). }
  assert (evolves h6 h7) as V7.
  { apply evolves_extends; [done| |].
    - intros q Hq. by rewrite (Hgq _ Hq).
    - intros q Hq. by rewrite Hc7. }
  destruct h7 as [O7 P7 S7 F7 L7 W7]. simpl in Hr7. mrun.
  match goal with |- context [GetClearFunction quiet ?hh] => set (h8 := hh) end.
  set (h7 := mkHeap O7 P7 S7 F7 L7 W7) in *.
  assert (heap_inv None h → heap_inv (Some (r, cs)) h8) as I8.
  { intros Hinv. apply (heap_inv_set_property _ h7 r (mkJSObject ∅ None None)); simpl; auto. }
  assert (evolves h7 h8) as V8.
  { by apply (evolves_set_object h7 r (mkJSObject ∅ None None)); simpl. }
  assert (controller_ok h8) as Hok8 by done.
  destruct (GetClearFunction_spec h8 Hok8)
    as (c & pc' & h9 & -> & E9 & Hok9 & Hc9 & Hpc9 & Hg9 & Hcq).
  assert (objects h9 !! r = Some (mkJSObject (<["get" := VObject g]> ∅) None None)) as Hr9.
  { apply (lookup_weaken _ _ _ _ (lookup_insert_eq _ _ _) (ext_objects _ _ E9)). }
  assert (heap_inv None h → heap_inv (Some (r, cs)) h9) as I9.
  { intros Hinv. apply (heap_inv_extends _ h8 h9 (I8 Hinv) E9 Hok9). }
  assert (evolves h8 h9) as V9.
  { apply evolves_extends; [done| |].
    - intros q Hq. by rewrite Hg9.
    - intros q Hq. by rewrite (Hcq _ Hq). }
  assert (persistents h9 !! pT =
            Some (mkPersistent (Some x) (Some (cs, cbWeakTargetCallback)))) as HpT9.
  { apply (lookup_weaken _ _ _ _ (lookup_weaken _ _ _ _
      (eq_trans (lookup_insert_ne _ _ _ _ Hne) (lookup_insert_eq _ _ _))
      (ext_persistents _ _ E7)) (ext_persistents _ _ E9)). }
  assert (persistents h9 !! pH =
            Some (mkPersistent (Some r) (Some (cs, cbWeakHolderCallback)))) as HpH9.
  { apply (lookup_weaken _ _ _ _ (lookup_weaken _ _ _ _ (lookup_insert_eq _ _ _)
      (ext_persistents _ _ E7)) (ext_persistents _ _ E9)). }
  assert (persistents h9 !! pg' = Some (mkPersistent (Some g) None)) as Hpg9.
  { apply (lookup_weaken _ _ _ _ Hpg7 (ext_persistents _ _ E9)). }
  assert (states h9 = <[cs := mkCallbackState (Some pT) (Some pH)]> S) as Hs9.
  { exact (eq_trans (ext_states _ _ E9) (ext_states _ _ E7)). }
  assert (freed h9 = F) as Hf9.
  { exact (eq_trans (ext_freed _ _ E9) (ext_freed _ _ E7)). }
  assert (m_poGetterFunc (thiz h9) = Some pg') as Hg9' by (by rewrite Hg9).
  destruct h9 as [O9 P9 S9 F9 L9 W9]. simpl in Hr9, HpT9, HpH9, Hpg9, Hs9, Hf9, Hg9', Hc9, Hpc9.
  mrun.
  set (h9 := mkHeap O9 P9 S9 F9 L9 W9) in *.
  exists r, pT, pH, cs, g, c, pg', pc'. eexists. split; [done|]. simpl.
  rewrite !insert_insert_eq, !lookup_insert_eq.
  split_and!; try done.
  - intros q ->. apply Hcq. simpl in *. by rewrite Hc7.
  - eapply evolves_trans; [apply V6|]. eapply evolves_trans; [apply V7|].
    eapply evolves_trans; [apply V8|]. eapply evolves_trans; [apply V9|].
    by apply (evolves_set_object h9 r (mkJSObject (<["get" := VObject g]> ∅) None None)); simpl.
  - intros Hinv.
    pose proof (heap_inv_set_property _ h9 r _
                  (<["clear" := VObject c]> (<["get" := VObject g]> ∅))
                  (I9 Hinv) Hr9) as I10.
    simpl in I10.
    match type of I10 with heap_inv _ ?hh => set (h10 := hh) in * end.
    assert (states h10 !! cs = Some (mkCallbackState (Some pT) (Some pH))) as Hs10.
    { simpl. subst S9. apply lookup_insert_eq. }
    pose proof (heap_inv_init_slot h10 r cs _ pT (Some x) _ pH _ I10
                  (lookup_insert_eq _ _ _) eq_refl HpT9 Hs10 eq_refl HpH9) as I11.
    unfold h10, set_objects in I11. simpl in I11.
    by rewrite insert_insert_eq in I11.
Qed.

(** *** One event *)

(** Releasing a registered handle keeps the accessor caches. *)
Lemma evolves_release h p obj cs cb O' S' F' :
  persistents h !! p = Some (mkPersistent obj (Some (cs, cb))) →
  (∀ o ob, objects h !! o = Some ob →
     ∃ ob', O' !! o = Some ob' ∧ native ob' = native ob ∧
            (hidden_target ob = Some None → hidden_target ob' = Some None)) →
  (∀ cs', is_Some (states h !! cs') → is_Some (S' !! cs') ∨ cs' ∈ F'.*1) →
  freed h `suffix_of` F' →
  evolves h (mkHeap O' (delete p (persistents h)) S' F' (leaked h) (thiz h)).
Proof.
  intros Hp HO HS HF. split; simpl; try done.
  - intros q c Hq Hc Hw. split; [done|]. rewrite lookup_delete_ne; [done|].
    intros <-. rewrite Hp in Hc. by simplify_eq.
  - intros q c Hq Hc Hw. split; [done|]. rewrite lookup_delete_ne; [done|].
    intros <-. rewrite Hp in Hc. by simplify_eq.
Qed.

Lemma objects_absent_evolve (O : gmap positive JSObject) ho ob0 o ob :
  O !! ho = Some ob0 → O !! o = Some ob →
  ∃ ob', <[ho := absent ob0]> O !! o = Some ob' ∧ native ob' = native ob ∧
         (hidden_target ob = Some None → hidden_target ob' = Some None).
Proof.
  intros Hho Ho. destruct (decide (o = ho)) as [->|Hne].
  - exists (absent ob0). rewrite lookup_insert_eq. split; [done|]. by simplify_eq.
  - exists ob. by rewrite lookup_insert_ne.
Qed.

Lemma collect_spec h p :
  heap_inv None h →
  ∃ h', collect quiet p h = (Returned tt, h') ∧ heap_inv None h' ∧ evolves h h'.
Proof.
  intros Hinv. unfold collect.
  destruct (persistents h !! p) as [[obj [[cs cb]|]]|] eqn:Hp.
  2,3: exists h; split_and!; [done|done|apply evolves_refl].
  destruct (inv_registered _ _ Hinv _ _ _ _ Hp) as (st & Hs & Hf).
  set (h1 := set_persistents <[p := mkPersistent obj None]> h).
  assert (persistents h1 !! p = Some (mkPersistent obj None)) as Hp1
    by apply lookup_insert_eq.
  destruct cb; simpl in Hf.
  - destruct st as [t [pH|]]; simpl in Hf; subst t.
    + destruct (inv_holder _ _ Hinv _ _ _ Hs eq_refl) as (ho & ob & HpH & Ho & Hsl).
      assert (pH ≠ p) as Hne by congruence.
      assert (persistents h1 !! pH =
                Some (mkPersistent (Some ho) (Some (cs, cbWeakHolderCallback)))) as HpH1.
      { simpl. by rewrite lookup_insert_ne. }
      rewrite (WeakTargetCallback_first h1 cs p _ pH _ ho ob Hs Hp1 Hne HpH1 Ho).
      simpl. rewrite delete_insert_eq. eexists. split; [done|]. split_and!.
      * pose proof (heap_inv_absent _ h ho ob Hinv Ho) as I2.
        eapply (heap_inv_release_target _ p obj cs pH _ ho (absent ob) I2); simpl; try done.
        apply lookup_insert_eq.
      * apply (evolves_release h p obj cs cbWeakTargetCallback); try done.
        -- intros o ob'. by apply objects_absent_evolve.
        -- intros cs' Hs'. left. destruct (decide (cs' = cs)) as [->|?].
           ++ by rewrite lookup_insert_eq.
           ++ by rewrite lookup_insert_ne.
    + rewrite (WeakTargetCallback_last h1 cs p _ Hs Hp1).
      simpl. rewrite delete_insert_eq. eexists. split; [done|]. split_and!.
      * eapply heap_inv_release_last; eauto.
      * apply (evolves_release h p obj cs cbWeakTargetCallback); try done.
        -- intros o ob' Ho'. by exists ob'.
        -- intros cs' Hs'. destruct (decide (cs' = cs)) as [->|?].
           ++ right. simpl. apply list_elem_of_here.
           ++ left. by rewrite lookup_delete_ne.
        -- by apply suffix_cons_r.
  - destruct (inv_holder _ _ Hinv _ _ _ Hs Hf) as (ho & ob & HpH & Ho & Hsl).
    rewrite Hp in HpH. injection HpH as ->.
    destruct (hidden_target ob) as [[pT|]|] eqn:Hhid.
    + pose proof (collect_rearm h cs st p ho ob pT Hs Hf Hp Ho Hhid) as Hc.
      unfold collect in Hc. rewrite Hp in Hc. fold h1 in Hc. rewrite Hc.
      exists h. split_and!; [done|done|apply evolves_refl].
    + rewrite (WeakHolderCallback_release h1 cs st p _ ho ob Hs Hf Hp1 Ho Hhid).
      simpl. rewrite delete_insert_eq. destruct st as [[pT|] hd]; simpl in *; subst hd.
      * eexists. split; [done|]. split_and!.
        -- eapply heap_inv_release_holder; eauto.
        -- apply (evolves_release h p (Some ho) cs cbWeakHolderCallback); try done.
           ++ intros o ob' Ho'. by exists ob'.
           ++ intros cs' Hs'. left. destruct (decide (cs' = cs)) as [->|?].
              ** by rewrite lookup_insert_eq.
              ** by rewrite lookup_insert_ne.
      * eexists. split; [done|]. split_and!.
        -- eapply heap_inv_release_last; eauto.
        -- apply (evolves_release h p (Some ho) cs cbWeakHolderCallback); try done.
           ++ intros o ob' Ho'. by exists ob'.
           ++ intros cs' Hs'. destruct (decide (cs' = cs)) as [->|?].
              ** right. simpl. apply list_elem_of_here.
              ** left. by rewrite lookup_delete_ne.
           ++ by apply suffix_cons_r.
    + destruct Hsl as [?|[?|[? _]]]; congruence.
Qed.

Lemma GettertCallback_heap faults args h : (GettertCallback faults args h).2 = h.
Proof.
  destruct h as [O P S F L W]. unfold_m.
  repeat (case_match; simplify_eq; simpl in *; try done).
Qed.

Lemma ClearCallback_missing h b vs this :
  objects h !! this = None →
  ClearCallback quiet (mkArgs b (Some this) vs) h = (Crashed, h).
Proof. intros Ho. destruct h as [O P S F L W]. simpl in *. unfold_m. by mrun. Qed.

(** The constructor on any arguments: one of the three refusals, which
    leave the heap as it is, or a construct call on one object. *)
Lemma ConstructorCallback_refusal faults args h :
  IsConstructCall args = false ∨ Length args ≠ 1 ∨ IsObject (arg args 0) = false →
  ConstructorCallback faults args h =
    (ScriptException
       (if IsConstructCall args then
          if decide (Length args = 1) then
            "The WeakRef constructor expects an object argument."
          else "The WeakRef constructor expects single parameter."
        else "WeakRef must be used as a construct call."), h).
Proof.
  intros Hc. unfold ConstructorCallback, ConstructorCallbackImpl, ConstructorCallbackImpl_ordered, try_catch.
  destruct (IsConstructCall args); [|done].
  destruct (decide (Length args = 1)); [|done].
  destruct (IsObject (arg args 0)); [|done].
  destruct Hc as [?|[?|?]]; done.
Qed.

Lemma args_accepted args :
  IsConstructCall args = true → Length args = 1 → IsObject (arg args 0) = true →
  ∃ this x, args = mkArgs true this [VObject x].
Proof.
  destruct args as [c t vs]. unfold Length, arg. simpl. intros -> Hl Ho.
  destruct vs as [|v [|??]]; simplify_eq. simpl in Ho. destruct v; try done. eauto.
Qed.

Lemma step_spec h e c h' :
  heap_inv None h → step quiet e h = (c, h') → c ≠ Crashed →
  heap_inv None h' ∧ evolves h h' ∧ (∀ f, c ≠ Escaped f) ∧
  ((∀ p, e ≠ eCollect p) → freed h' = freed h).
Proof.
  intros Hinv Hstep Hc. destruct e as [args|this|this| |p]; simpl in Hstep.
  - destruct (IsConstructCall args) eqn:H1;
      [destruct (decide (Length args = 1)) as [H2|H2];
       [destruct (IsObject (arg args 0)) eqn:H3|]|].
    + destruct (args_accepted _ H1 H2 H3) as (this & x & ->).
      destruct (ConstructorCallbackImpl_ok h this x (inv_controller _ _ Hinv))
        as (r & pT & pH & cs & g & cl & pg & pc & h2 & Heq & Hrest).
      unfold ConstructorCallback, try_catch in Hstep. rewrite Heq in Hstep.
      simpl in Hstep. simplify_eq.
      destruct Hrest as (_ & _ & _ & _ & _ & _ & _ & Hfr & _ & _ & _ & _ & _ & _ & _ & V & I).
      split_and!; auto.
    + rewrite ConstructorCallback_refusal in Hstep by auto. simpl in Hstep. simplify_eq.
      split_and!; [done|apply evolves_refl|done|done].
    + rewrite ConstructorCallback_refusal in Hstep by auto. simpl in Hstep. simplify_eq.
      split_and!; [done|apply evolves_refl|done|done].
    + rewrite ConstructorCallback_refusal in Hstep by auto. simpl in Hstep. simplify_eq.
      split_and!; [done|apply evolves_refl|done|done].
  - pose proof (GettertCallback_heap quiet (method_call this) h) as Hh.
    destruct (GettertCallback quiet (method_call this) h) as [c0 h0] eqn:Hg. simpl in Hh.
    subst h0.
    assert (h' = h ∧ ∀ f, c ≠ Escaped f) as [-> Hesc].
    { destruct c0; simpl in Hstep; simplify_eq; split; try done.
      exfalso. unfold GettertCallback, try_catch in Hg. by repeat case_match. }
    split_and!; [done|apply evolves_refl|done|done].
  - destruct (objects h !! this) as [ob|] eqn:Ho.
    + unfold method_call in Hstep. rewrite (ClearCallback_spec _ _ _ _ _ Ho) in Hstep.
      simpl in Hstep. simplify_eq. split_and!; try done.
      * by apply heap_inv_absent.
      * by apply (evolves_set_object h this ob).
    + unfold method_call in Hstep. rewrite (ClearCallback_missing _ _ _ _ Ho) in Hstep.
      simpl in Hstep. by simplify_eq.
  - unfold new_object in Hstep. simpl in Hstep. simplify_eq.
    pose proof (extends_alloc_object h empty_object eq_refl) as E.
    split_and!; try done.
    + eapply heap_inv_extends; [done|done|].
      eapply controller_ok_extends; [apply (inv_controller _ _ Hinv)|done|done].
    + by apply evolves_extends.
  - destruct (collect_spec h p Hinv) as (h2 & Heq & I2 & V2).
    rewrite Heq in Hstep. simplify_eq. split_and!; try done.
    intros Hp. by destruct (Hp p).
Qed.

Lemma exec_spec es h h' :
  heap_inv None h → exec quiet es h = Some h' → heap_inv None h' ∧ evolves h h'.
Proof.
  revert h. induction es as [|e es IH]; intros h Hinv Hex; simpl in Hex.
  - simplify_eq. split; [done|apply evolves_refl].
  - destruct (step quiet e h) as [c h1] eqn:Hstep.
    assert (c ≠ Crashed) as Hc by (intros ->; done).
    destruct (step_spec _ _ _ _ Hinv Hstep Hc) as (I1 & V1 & _).
    assert (exec quiet es h1 = Some h') as Hex' by (by destruct c).
    destruct (IH _ I1 Hex') as [I2 V2]. split; [done|by eapply evolves_trans].
Qed.

Lemma boot_inv : heap_inv None boot.
Proof.
  assert (boot = mkHeap ∅ ∅ ∅ [] [] (mkWeakRef (Some TheObjectManager) None None)) as ->
    by reflexivity.
  split; simpl; try done.
  - apply NoDup_nil_2.
  - intros cs st Hin. by apply elem_of_nil in Hin.
Qed.

(** ** Lifetime of the shared record *)

Lemma step_freed h e c h' :
  heap_inv None h → step quiet e h = (c, h') → (∀ p, e ≠ eCollect p) →
  freed h' = freed h.
Proof.
  intros Hinv Hstep Hne.
  assert (c = Crashed ∨ c ≠ Crashed) as [->|Hc] by (destruct c; auto).
  - destruct e as [args|this|this| |p]; simpl in Hstep.
    + destruct (IsConstructCall args) eqn:H1;
        [destruct (decide (Length args = 1)) as [H2|H2];
         [destruct (IsObject (arg args 0)) eqn:H3|]|].
      2-4: rewrite ConstructorCallback_refusal in Hstep by auto; simpl in Hstep; by simplify_eq.
      destruct (args_accepted _ H1 H2 H3) as (this & x & ->).
      destruct (ConstructorCallbackImpl_ok h this x (inv_controller _ _ Hinv))
        as (r & pT & pH & cs & g & cl & pg & pc & h2 & Heq & Hrest).
      unfold ConstructorCallback, try_catch in Hstep. rewrite Heq in Hstep.
      simpl in Hstep. by simplify_eq.
    + pose proof (GettertCallback_heap quiet (method_call this) h) as Hh.
      destruct (GettertCallback quiet (method_call this) h) as [c0 h0]. simpl in Hh.
      subst h0. destruct c0; simpl in Hstep; by simplify_eq.
    + destruct (objects h !! this) as [ob|] eqn:Ho.
      * unfold method_call in Hstep. rewrite (ClearCallback_spec _ _ _ _ _ Ho) in Hstep.
        simpl in Hstep. by simplify_eq.
      * unfold method_call in Hstep. rewrite (ClearCallback_missing _ _ _ _ Ho) in Hstep.
        simpl in Hstep. by simplify_eq.
    + unfold new_object in Hstep. simpl in Hstep. by simplify_eq.
    + by destruct (Hne p).
  - by apply (step_spec h e c h' Hinv Hstep Hc).
Qed.

(** C1.  In every heap a process can reach from its start, through any
    sequence of constructions, [get()] and [clear()] calls and collector
    callbacks: no [CallbackState] has been deleted twice; every deleted
    record had both fields null when it was deleted and is no longer in
    the heap; every record still in the heap has a non-null field, the
    handle in it registered with the record; a registered handle names a
    record that is in the heap and was never deleted.  Whatever happens
    next, a record of the heap is still there or has been deleted (once,
    by the first point), and the log of deletions only grows.  Every
    collector callback returns normally, and an event other than a
    collector callback deletes nothing. *)
Theorem CallbackState_freed_exactly_once es h :
  exec quiet es boot = Some h →
  NoDup (freed h).*1 ∧
  (∀ cs st, (cs, st) ∈ freed h →
     st = mkCallbackState None None ∧ states h !! cs = None) ∧
  (∀ cs st, states h !! cs = Some st →
     (target st ≠ None ∨ holder st ≠ None) ∧
     (∀ cb p, field cb st = Some p →
        ∃ obj, persistents h !! p = Some (mkPersistent obj (Some (cs, cb))))) ∧
  (∀ p obj cs cb, persistents h !! p = Some (mkPersistent obj (Some (cs, cb))) →
     (cs ∉ (freed h).*1) ∧ ∃ st, states h !! cs = Some st ∧ field cb st = Some p) ∧
  (∀ es' h', exec quiet es' h = Some h' →
     freed h `suffix_of` freed h' ∧
     ∀ cs, is_Some (states h !! cs) → is_Some (states h' !! cs) ∨ cs ∈ (freed h').*1) ∧
  (∀ p, ∃ h', collect quiet p h = (Returned tt, h')) ∧
  (∀ e c h', step quiet e h = (c, h') → (∀ p, e ≠ eCollect p) → freed h' = freed h).
Proof.
  intros Hex. destruct (exec_spec _ _ _ boot_inv Hex) as [Hinv _].
  split_and!.
  - apply (inv_freed_nodup _ _ Hinv).
  - intros cs st Hin. destruct (inv_freed _ _ Hinv _ _ Hin). done.
  - intros cs st Hs. split; [by eapply inv_live|].
    intros [] p Hf; simpl in Hf.
    + apply (inv_target _ _ Hinv _ _ _ Hs Hf).
    + destruct (inv_holder _ _ Hinv _ _ _ Hs Hf) as (ho & ob & Hp & _). eauto.
  - intros p obj cs cb Hp.
    destruct (inv_registered _ _ Hinv _ _ _ _ Hp) as (st & Hs & Hf). split; [|eauto].
    intros [[cs' st'] [? Hin]]%list_elem_of_fmap. simpl in *. subst cs'.
    destruct (inv_freed _ _ Hinv _ _ Hin). congruence.
  - intros es' h' Hex'. destruct (exec_spec _ _ _ Hinv Hex') as [_ V].
    split; [apply (ev_freed _ _ V)|apply (ev_states _ _ V)].
  - intros p. destruct (collect_spec h p Hinv) as (h' & Heq & _). eauto.
  - intros e c h' Hstep Hne. by eapply step_freed.
Qed.

Lemma CallbackState_freed_exactly_once_witness :
  exec quiet demo_run boot = Some demo_heap ∧
  freed demo_heap = [(1%positive, mkCallbackState None None)] ∧
  NoDup (freed demo_heap).*1.
Proof.
  split; [vm_compute; reflexivity|]. split; [vm_compute; reflexivity|].
  apply (CallbackState_freed_exactly_once demo_run demo_heap).
  vm_compute. reflexivity.
Defined.


(** ** Witnesses for the finalize handlers and [clear()] *)

Lemma WeakTargetCallback_effect_witness :
  (∃ h', WeakTargetCallback_ordered quiet RightToLeft 1 holder_gone_heap =
           (Returned tt, h') ∧
         persistents h' = delete 1%positive (persistents holder_gone_heap) ∧
         leaked h' = leaked holder_gone_heap ∧
         freed h' = [(1%positive, mkCallbackState None None)]) ∧
  (∃ h', WeakTargetCallback_ordered quiet RightToLeft 1 wrapped_heap =
           (Returned tt, h') ∧
         GettertCallback quiet (method_call 2) h' = (Returned VNull, h')).
Proof.
  split.
  - destruct (proj1 WeakTargetCallback_effect RightToLeft holder_gone_heap
                1%positive 1%positive
                (mkPersistent (Some 1%positive) (Some (1%positive, cbWeakTargetCallback))))
      as (h' & Heq & Hp & Hl & _ & Hf & _);
      [vm_compute; reflexivity|vm_compute; reflexivity|].
    exists h'. split; [exact Heq|]. split; [exact Hp|]. split; [exact Hl|exact Hf].
  - destruct (proj2 WeakTargetCallback_effect RightToLeft wrapped_heap
                1%positive 1%positive
                (mkPersistent (Some 1%positive) (Some (1%positive, cbWeakTargetCallback)))
                2%positive (Some (1%positive, cbWeakHolderCallback)) 2%positive
                (mkJSObject (<["clear" := VObject 4%positive]>
                               (<["get" := VObject 3%positive]> ∅))
                            (Some (Some 1%positive)) None))
      as (h' & Heq & _ & _ & _ & _ & _ & _ & Hget);
      [vm_compute; reflexivity|vm_compute; reflexivity|lia
      |vm_compute; reflexivity|vm_compute; reflexivity|].
    exists h'. split; [exact Heq|exact Hget].
Defined.

Lemma WeakHolderCallback_effect_witness :
  collect quiet 2 wrapped_heap = (Returned tt, wrapped_heap) ∧
  (∃ h', WeakHolderCallback quiet 1 target_gone_heap = (Returned tt, h') ∧
         persistents h' = delete 2%positive (persistents target_gone_heap) ∧
         leaked h' = leaked target_gone_heap ∧
         freed h' = [(1%positive, mkCallbackState None None)]).
Proof.
  split.
  - destruct (proj1 WeakHolderCallback_effect wrapped_heap 1%positive
                (mkCallbackState (Some 1%positive) (Some 2%positive)) 2%positive
                (Some (1%positive, cbWeakHolderCallback)) 2%positive
                (mkJSObject (<["clear" := VObject 4%positive]>
                               (<["get" := VObject 3%positive]> ∅))
                            (Some (Some 1%positive)) None) 1%positive)
      as (h' & _ & _ & _ & _ & _ & _ & _ & Hsame);
      [vm_compute; reflexivity|reflexivity|vm_compute; reflexivity
      |vm_compute; reflexivity|reflexivity|].
    exact (proj2 (Hsame eq_refl)).
  - destruct (proj2 WeakHolderCallback_effect target_gone_heap 1%positive
                (mkCallbackState None (Some 2%positive)) 2%positive
                (Some (1%positive, cbWeakHolderCallback)) 2%positive
                (mkJSObject (<["clear" := VObject 4%positive]>
                               (<["get" := VObject 3%positive]> ∅))
                            (Some None) None))
      as (h' & Heq & Hp & Hl & _ & _ & _ & Hf);
      [vm_compute; reflexivity|reflexivity|vm_compute; reflexivity
      |vm_compute; reflexivity|reflexivity|].
    exists h'. split; [exact Heq|]. split; [exact Hp|]. split; [exact Hl|exact Hf].
Defined.

Lemma ClearCallback_frame_witness :
  ∃ h', ClearCallback quiet (method_call 2) wrapped_heap = (Returned VUndefined, h') ∧
        persistents h' = persistents wrapped_heap ∧ states h' = states wrapped_heap.
Proof.
  destruct (ClearCallback_frame wrapped_heap false 2%positive []
              (mkJSObject (<["clear" := VObject 4%positive]>
                             (<["get" := VObject 3%positive]> ∅))
                          (Some (Some 1%positive)) None))
    as (h' & Heq & _ & _ & _ & _ & Hp & Hs & _);
    [vm_compute; reflexivity|].
  exists h'. split; [exact Heq|]. split; [exact Hp|exact Hs].
Defined.

(** ** The constructor *)

(** C5, as amended.  The three refusals are tried in the order construct
    call, arity, argument kind, each with its exact message and before
    anything is allocated; a construct call with one object argument, on
    an initialised controller and with no fault from the engine, returns
    a fresh holder object carrying [get], [clear] and the target handle in
    its hidden slot. *)
Theorem ConstructorCallback_outcomes :
  (∀ faults args h,
     IsConstructCall args = false →
     ConstructorCallback faults args h =
       (ScriptException "WeakRef must be used as a construct call.", h)) ∧
  (∀ faults args h,
     IsConstructCall args = true → Length args ≠ 1 →
     ConstructorCallback faults args h =
       (ScriptException "The WeakRef constructor expects single parameter.", h)) ∧
  (∀ faults args h,
     IsConstructCall args = true → Length args = 1 → IsObject (arg args 0) = false →
     ConstructorCallback faults args h =
       (ScriptException "The WeakRef constructor expects an object argument.", h)) ∧
  (∀ args h,
     IsConstructCall args = true → Length args = 1 → IsObject (arg args 0) = true →
     controller_ok h →
     ∃ (r pT g c : positive) h',
       ConstructorCallback quiet args h = (Returned (VObject r), h') ∧
       objects h !! r = None ∧
       objects h' !! r =
         Some (mkJSObject (<["clear" := VObject c]> (<["get" := VObject g]> ∅))
                          (Some (Some pT)) None)).
Proof.
  split_and!.
  - intros faults args h H1. rewrite ConstructorCallback_refusal by auto. by rewrite H1.
  - intros faults args h H1 H2. rewrite ConstructorCallback_refusal by auto.
    rewrite H1. by destruct (decide (Length args = 1)).
  - intros faults args h H1 H2 H3. rewrite ConstructorCallback_refusal by auto.
    rewrite H1. by destruct (decide (Length args = 1)).
  - intros args h H1 H2 H3 Hok. destruct (args_accepted _ H1 H2 H3) as (this & x & ->).
    destruct (ConstructorCallbackImpl_ok h this x Hok)
      as (r & pT & pH & cs & g & c & pg & pc & h' & Heq & Hr & _ & _ & Hr' & _).
    exists r, pT, g, c, h'. unfold ConstructorCallback, try_catch. by rewrite Heq.
Qed.

Lemma ConstructorCallback_outcomes_witness :
  ConstructorCallback quiet (plain_call [VNumber 5]) boot =
    (ScriptException "WeakRef must be used as a construct call.", boot) ∧
  ConstructorCallback quiet (construct_call [VNumber 1; VNumber 2]) boot =
    (ScriptException "The WeakRef constructor expects single parameter.", boot) ∧
  ConstructorCallback quiet (construct_call [VNumber 5]) boot =
    (ScriptException "The WeakRef constructor expects an object argument.", boot) ∧
  ∃ (r pT g c : positive) h',
    ConstructorCallback quiet (construct_call [VObject 1%positive]) target_heap =
      (Returned (VObject r), h') ∧
    objects target_heap !! r = None ∧
    objects h' !! r =
      Some (mkJSObject (<["clear" := VObject c]> (<["get" := VObject g]> ∅))
                       (Some (Some pT)) None).
Proof.
  destruct ConstructorCallback_outcomes as (Hinvocation & Hcount & Htype & Hsuccess).
  split; [apply Hinvocation; reflexivity|].
  split; [apply Hcount; [reflexivity|vm_compute; lia]|].
  split; [apply Htype; reflexivity|].
  apply Hsuccess; [reflexivity|reflexivity|reflexivity|].
  vm_compute. split; [eexists; reflexivity|]. split; intros p Hp; discriminate Hp.
Defined.

(** C5 as stated fails: a plain call with no argument has an arity other
    than 1, and is not refused with the arity message. *)
Lemma ConstructorCallback_arity_counterexample :
  Length (plain_call []) ≠ 1 ∧
  ConstructorCallback quiet (plain_call []) boot ≠
    (ScriptException "The WeakRef constructor expects single parameter.", boot) ∧
  ConstructorCallback quiet (plain_call []) boot =
    (ScriptException "WeakRef must be used as a construct call.", boot).
Proof.
  split; [vm_compute; lia|]. split; [|reflexivity].
  intros H. vm_compute in H. discriminate H.
Qed.

(** C10.  Whatever the engine does, a constructor call that is not a
    construct call, or has an arity other than 1, or has a non-object
    argument ends in one of the three refusals and leaves the whole heap
    as it was: objects, handles, records, the log of freed records and the
    accessor caches of the controller.  Conversely, on an initialised
    controller and with no fault from the engine, a constructor call that
    ends in a script exception is one of these refusals and has left the
    heap as it was. *)
Theorem ConstructorCallback_refusal_atomic :
  (∀ faults args h,
     IsConstructCall args = false ∨ Length args ≠ 1 ∨ IsObject (arg args 0) = false →
     ∃ message,
       ConstructorCallback faults args h = (ScriptException message, h) ∧
       message ∈ [ "WeakRef must be used as a construct call.";
                   "The WeakRef constructor expects single parameter.";
                   "The WeakRef constructor expects an object argument." ]) ∧
  (∀ args h message h',
     controller_ok h →
     ConstructorCallback quiet args h = (ScriptException message, h') →
     h' = h ∧
     (IsConstructCall args = false ∨ Length args ≠ 1 ∨ IsObject (arg args 0) = false)).
Proof.
  split.
  - intros faults args h Hc. eexists. split; [by apply ConstructorCallback_refusal|].
    destruct (IsConstructCall args); [destruct (decide (Length args = 1))|].
    + do 2 apply list_elem_of_further. apply list_elem_of_here.
    + apply list_elem_of_further, list_elem_of_here.
    + apply list_elem_of_here.
  - intros args h message h' Hok Hc.
    destruct (IsConstructCall args) eqn:H1;
      [destruct (decide (Length args = 1)) as [H2|H2];
       [destruct (IsObject (arg args 0)) eqn:H3|]|].
    2-4: rewrite ConstructorCallback_refusal in Hc by auto; injection Hc as _ <-; auto.
    exfalso. destruct (args_accepted _ H1 H2 H3) as (this & x & ->).
    destruct (ConstructorCallbackImpl_ok h this x Hok)
      as (r & pT & pH & cs & g & c & pg & pc & h2 & Heq & _).
    unfold ConstructorCallback, try_catch in Hc. by rewrite Heq in Hc.
Qed.

Lemma ConstructorCallback_refusal_atomic_witness :
  (∃ message,
     ConstructorCallback GetTarget_fails (construct_call [VNumber 5]) wrapped_heap =
       (ScriptException message, wrapped_heap) ∧
     message ∈ [ "WeakRef must be used as a construct call.";
                 "The WeakRef constructor expects single parameter.";
                 "The WeakRef constructor expects an object argument." ]) ∧
  (boot = boot ∧
   (IsConstructCall (plain_call [VObject 1%positive]) = false ∨
    Length (plain_call [VObject 1%positive]) ≠ 1 ∨
    IsObject (arg (plain_call [VObject 1%positive]) 0) = false)).
Proof.
  destruct ConstructorCallback_refusal_atomic as [Hrefused Hconverse]. split.
  - apply (Hrefused GetTarget_fails (construct_call [VNumber 5]) wrapped_heap).
    right. right. reflexivity.
  - apply (Hconverse (plain_call [VObject 1%positive]) boot
             "WeakRef must be used as a construct call." boot); [|reflexivity].
    vm_compute. split; [eexists; reflexivity|]. split; intros p Hp; discriminate Hp.
Defined.

(** ** [get()] *)

(** C6.  On an initialised controller, [get()] on the holder that
    [new WeakRef(x)] has just returned resolves the handle in the hidden
    slot and returns [x], leaving the heap as it is; and [get()] on any
    object whose hidden slot holds the absent sentinel returns null. *)
Theorem GettertCallback_after_construction :
  (∀ h this x,
     controller_ok h →
     ∃ (r pT : positive) w ob h',
       ConstructorCallback quiet (mkArgs true this [VObject x]) h =
         (Returned (VObject r), h') ∧
       objects h' !! r = Some ob ∧ hidden_target ob = Some (Some pT) ∧
       persistents h' !! pT = Some (mkPersistent (Some x) w) ∧
       GettertCallback quiet (method_call r) h' = (Returned (VObject x), h')) ∧
  (∀ h this ob,
     objects h !! this = Some ob → hidden_target ob = Some None →
     GettertCallback quiet (method_call this) h = (Returned VNull, h)).
Proof.
  split.
  - intros h this x Hok.
    destruct (ConstructorCallbackImpl_ok h this x Hok)
      as (r & pT & pH & cs & g & c & pg & pc & h' & Heq & _ & _ & _ & Hr' & HpT & _).
    eexists r, pT, _, _, h'. unfold ConstructorCallback, try_catch. rewrite Heq.
    split_and!; [done|exact Hr'|done|exact HpT|].
    exact (GettertCallback_live h' false r [] _ pT _ Hr' eq_refl HpT).
  - intros h this ob Ho Hh. by eapply GettertCallback_absent.
Qed.

Lemma GettertCallback_after_construction_witness :
  (∃ (r pT : positive) w ob h',
     ConstructorCallback quiet (construct_call [VObject 1%positive]) target_heap =
       (Returned (VObject r), h') ∧
     objects h' !! r = Some ob ∧ hidden_target ob = Some (Some pT) ∧
     persistents h' !! pT = Some (mkPersistent (Some 1%positive) w) ∧
     GettertCallback quiet (method_call r) h' = (Returned (VObject 1%positive), h')) ∧
  GettertCallback quiet (method_call 2) target_gone_heap = (Returned VNull, target_gone_heap).
Proof.
  split.
  - apply (proj1 GettertCallback_after_construction target_heap None 1%positive).
    vm_compute. split; [eexists; reflexivity|]. split; intros p Hp; discriminate Hp.
  - apply (proj2 GettertCallback_after_construction target_gone_heap 2%positive
             (mkJSObject (<["clear" := VObject 4%positive]>
                            (<["get" := VObject 3%positive]> ∅))
                         (Some None) None));
      [vm_compute; reflexivity|reflexivity].
Defined.

(** C7.  From any reachable heap: after [clear()] on an object, [get()]
    on it returns null at once and after any further events, whatever
    becomes of the target; after the target-finalize callback of a wrapper
    whose holder handle is still registered, [get()] on the holder returns
    null at once and after any further events; and [get()] never changes
    the heap, so that repeating it repeats its result. *)
Theorem GettertCallback_null_thereafter :
  (∀ es0 h r ob,
     exec quiet es0 boot = Some h → objects h !! r = Some ob →
     ∃ h1, ClearCallback quiet (method_call r) h = (Returned VUndefined, h1) ∧
       ∀ es h2, exec quiet es h1 = Some h2 →
         GettertCallback quiet (method_call r) h2 = (Returned VNull, h2)) ∧
  (∀ es0 h cs pT pH ho w,
     exec quiet es0 boot = Some h →
     states h !! cs = Some (mkCallbackState (Some pT) (Some pH)) →
     persistents h !! pH = Some (mkPersistent (Some ho) w) →
     ∃ h1, collect quiet pT h = (Returned tt, h1) ∧ persistents h1 !! pT = None ∧
       ∀ es h2, exec quiet es h1 = Some h2 →
         GettertCallback quiet (method_call ho) h2 = (Returned VNull, h2)) ∧
  (∀ faults args h, (GettertCallback faults args h).2 = h).
Proof.
  assert (Hlater : ∀ h1 r ob1 es h2,
    heap_inv None h1 → objects h1 !! r = Some ob1 → hidden_target ob1 = Some None →
    exec quiet es h1 = Some h2 →
    GettertCallback quiet (method_call r) h2 = (Returned VNull, h2)).
  { intros h1 r ob1 es h2 I1 Ho Hh Hex. destruct (exec_spec _ _ _ I1 Hex) as [_ V].
    destruct (ev_objects _ _ V _ _ Ho) as (ob2 & Ho2 & _ & Hh2).
    eapply GettertCallback_absent; eauto. }
  split_and!.
  - intros es0 h r ob Hex Ho. destruct (exec_spec _ _ _ boot_inv Hex) as [Hinv _].
    eexists. split; [by apply ClearCallback_spec|].
    intros es h2. apply (Hlater _ r (absent ob)).
    + by apply heap_inv_absent.
    + apply lookup_insert_eq.
    + done.
  - intros es0 h cs pT pH ho w Hex Hs HpH.
    destruct (exec_spec _ _ _ boot_inv Hex) as [Hinv _].
    destruct (inv_target _ _ Hinv _ _ _ Hs eq_refl) as [x HpT].
    destruct (inv_holder _ _ Hinv _ _ _ Hs eq_refl) as (ho' & ob & HpH' & Ho & _).
    rewrite HpH in HpH'. injection HpH' as <- ->.
    destruct (collect_spec h pT Hinv) as (h1 & Heq & I1 & _).
    exists h1. split; [done|].
    unfold collect in Heq. rewrite HpT in Heq.
    rewrite (WeakTargetCallback_first _ cs pT (mkPersistent x None) pH
               (Some (cs, cbWeakHolderCallback)) ho ob) in Heq; simpl; try done.
    + injection Heq as <-. simpl. split; [apply lookup_delete_eq|].
      intros es h2. apply (Hlater _ ho (absent ob)); [done| |done].
      apply lookup_insert_eq.
    + apply lookup_insert_eq.
    + congruence.
    + rewrite lookup_insert_ne by congruence. done.
  - apply GettertCallback_heap.
Qed.

Lemma GettertCallback_null_thereafter_witness :
  (∃ h1, ClearCallback quiet (method_call 2) wrapped_heap = (Returned VUndefined, h1) ∧
     ∀ es h2, exec quiet es h1 = Some h2 →
       GettertCallback quiet (method_call 2) h2 = (Returned VNull, h2)) ∧
  (∃ h1, collect quiet 1 wrapped_heap = (Returned tt, h1) ∧
     persistents h1 !! 1%positive = None ∧
     ∀ es h2, exec quiet es h1 = Some h2 →
       GettertCallback quiet (method_call 2) h2 = (Returned VNull, h2)).
Proof.
  destruct GettertCallback_null_thereafter as (Hclear & Hgone & _). split.
  - apply (Hclear (take 2 demo_run) wrapped_heap 2%positive
             (mkJSObject (<["clear" := VObject 4%positive]>
                            (<["get" := VObject 3%positive]> ∅))
                         (Some (Some 1%positive)) None));
      vm_compute; reflexivity.
  - apply (Hgone (take 2 demo_run) wrapped_heap 1%positive 1%positive 2%positive
             2%positive (Some (1%positive, cbWeakHolderCallback)));
      vm_compute; reflexivity.
Defined.

(** ** The accessor caches *)

Lemma GetGetterFunction_again h f h' :
  GetGetterFunction quiet h = (Ok f, h') → GetGetterFunction quiet h' = (Ok f, h').
Proof.
  destruct (m_poGetterFunc (thiz h)) as [p|] eqn:Hm.
  - destruct (persistents h !! p) as [[obj w]|] eqn:Hp.
    + rewrite (GetGetterFunction_cached _ _ _ _ Hm Hp). intros [= <- <-].
      by apply (GetGetterFunction_cached _ _ _ _ Hm Hp).
    + destruct h as [O P S F L [om pc pg]]. simpl in *. subst pg. unfold_m. by mrun.
  - rewrite (GetGetterFunction_first _ Hm). intros [= <- <-].
    eapply GetGetterFunction_cached; simpl; [done|apply lookup_insert_eq].
Qed.

Lemma GetClearFunction_again h f h' :
  GetClearFunction quiet h = (Ok f, h') → GetClearFunction quiet h' = (Ok f, h').
Proof.
  destruct (m_poClearFunc (thiz h)) as [p|] eqn:Hm.
  - destruct (persistents h !! p) as [[obj w]|] eqn:Hp.
    + rewrite (GetClearFunction_cached _ _ _ _ Hm Hp). intros [= <- <-].
      by apply (GetClearFunction_cached _ _ _ _ Hm Hp).
    + destruct h as [O P S F L [om pc pg]]. simpl in *. subst pc. unfold_m. by mrun.
  - rewrite (GetClearFunction_first _ Hm). intros [= <- <-].
    eapply GetClearFunction_cached; simpl; [done|apply lookup_insert_eq].
Qed.

(** C9.  With nothing cached, [GetGetterFunction] builds a new function
    object around [GettertCallback] and stores a strong handle to it in
    [m_poGetterFunc]; a request that follows one that returned [f] returns
    [f] again and changes nothing; the same holds of [GetClearFunction],
    [ClearCallback] and [m_poClearFunc].  And in any run from the start of
    the process, two wrappers made by the constructor, however far apart,
    carry the same [get] function and the same [clear] function. *)
Theorem accessor_functions_cached :
  (∀ h, m_poGetterFunc (thiz h) = None →
     ∃ (f p : positive) h',
       GetGetterFunction quiet h = (Ok (Some f), h') ∧
       objects h !! f = None ∧
       objects h' !! f = Some (mkJSObject ∅ None (Some cbGettertCallback)) ∧
       m_poGetterFunc (thiz h') = Some p ∧
       persistents h' !! p = Some (mkPersistent (Some f) None)) ∧
  (∀ h, m_poClearFunc (thiz h) = None →
     ∃ (f p : positive) h',
       GetClearFunction quiet h = (Ok (Some f), h') ∧
       objects h !! f = None ∧
       objects h' !! f = Some (mkJSObject ∅ None (Some cbClearCallback)) ∧
       m_poClearFunc (thiz h') = Some p ∧
       persistents h' !! p = Some (mkPersistent (Some f) None)) ∧
  (∀ h f h', GetGetterFunction quiet h = (Ok f, h') →
             GetGetterFunction quiet h' = (Ok f, h')) ∧
  (∀ h f h', GetClearFunction quiet h = (Ok f, h') →
             GetClearFunction quiet h' = (Ok f, h')) ∧
  (∀ es0 h args1 r1 h1 es h2 args2 r2 h3,
     exec quiet es0 boot = Some h →
     ConstructorCallback quiet args1 h = (Returned (VObject r1), h1) →
     exec quiet es h1 = Some h2 →
     ConstructorCallback quiet args2 h2 = (Returned (VObject r2), h3) →
     ∃ (g c : positive) ob1 ob2,
       objects h1 !! r1 = Some ob1 ∧ objects h3 !! r2 = Some ob2 ∧
       properties ob1 !! "get" = Some (VObject g) ∧
       properties ob2 !! "get" = Some (VObject g) ∧
       properties ob1 !! "clear" = Some (VObject c) ∧
       properties ob2 !! "clear" = Some (VObject c)).
Proof.
  split_and!.
  - intros h Hm. eexists _, _, _. split; [by apply GetGetterFunction_first|]. simpl.
    split_and!; [apply fresh_lookup|apply lookup_insert_eq|done|apply lookup_insert_eq].
  - intros h Hm. eexists _, _, _. split; [by apply GetClearFunction_first|]. simpl.
    split_and!; [apply fresh_lookup|apply lookup_insert_eq|done|apply lookup_insert_eq].
  - apply GetGetterFunction_again.
  - apply GetClearFunction_again.
  - intros es0 h args1 r1 h1 es h2 args2 r2 h3 Hex0 Hc1 Hex Hc2.
    destruct (exec_spec _ _ _ boot_inv Hex0) as [Hinv _].
    assert (Hacc : ∀ args h r h', heap_inv None h →
      ConstructorCallback quiet args h = (Returned (VObject r), h') →
      ∃ this x, args = mkArgs true this [VObject x]).
    { intros args h0 r h' _ Hc.
      destruct (IsConstructCall args) eqn:H1;
        [destruct (decide (Length args = 1)) as [H2|H2];
         [destruct (IsObject (arg args 0)) eqn:H3|]|].
      2-4: by rewrite ConstructorCallback_refusal in Hc by auto.
      by apply args_accepted. }
    destruct (Hacc _ _ _ _ Hinv Hc1) as (this1 & x1 & ->).
    destruct (ConstructorCallbackImpl_ok h this1 x1 (inv_controller _ _ Hinv))
      as (r & pT & pH & cs & g & c & pg & pc & h' & Heq & _ & _ & _ & Hr & _ & _ & _ & _
          & Hg & Hpg & Hc & Hpc & _ & _ & _ & _ & I1).
    unfold ConstructorCallback, try_catch in Hc1. rewrite Heq in Hc1.
    injection Hc1 as <- <-. specialize (I1 Hinv).
    destruct (exec_spec _ _ _ I1 Hex) as [I2 V2].
    destruct (ev_getter _ _ V2 _ _ Hg Hpg eq_refl) as [Hg2 Hpg2].
    destruct (ev_clear _ _ V2 _ _ Hc Hpc eq_refl) as [Hc2' Hpc2].
    destruct (Hacc _ _ _ _ I2 Hc2) as (this2 & x2 & ->).
    destruct (ConstructorCallbackImpl_ok h2 this2 x2 (inv_controller _ _ I2))
      as (r' & pT' & pH' & cs' & g' & c' & pg' & pc' & h'' & Heq' & _ & _ & _ & Hr' & _ & _
          & _ & _ & Hg' & Hpg' & Hc' & Hpc' & Hgq & Hcq & _ & V3 & _).
    unfold ConstructorCallback, try_catch in Hc2. rewrite Heq' in Hc2.
    injection Hc2 as <- <-.
    destruct (ev_getter _ _ V3 _ _ Hg2 Hpg2 eq_refl) as [Hg3 Hpg3].
    destruct (ev_clear _ _ V3 _ _ Hc2' Hpc2 eq_refl) as [Hc3 Hpc3].
    assert (g' = g) as -> by congruence.
    assert (c' = c) as -> by congruence.
    eexists g, c, _, _. split_and!; [exact Hr|exact Hr'|..]; simpl.
    + rewrite lookup_insert_ne by done. apply lookup_insert_eq.
    + rewrite lookup_insert_ne by done. apply lookup_insert_eq.
    + apply lookup_insert_eq.
    + apply lookup_insert_eq.
Qed.

Lemma accessor_functions_cached_witness :
  (∃ (f p : positive) h',
     GetGetterFunction quiet boot = (Ok (Some f), h') ∧
     objects boot !! f = None ∧
     objects h' !! f = Some (mkJSObject ∅ None (Some cbGettertCallback)) ∧
     m_poGetterFunc (thiz h') = Some p ∧
     persistents h' !! p = Some (mkPersistent (Some f) None)) ∧
  GetGetterFunction quiet wrapped_heap = (Ok (Some 3%positive), wrapped_heap) ∧
  GetClearFunction quiet wrapped_heap = (Ok (Some 4%positive), wrapped_heap).
Proof.
  destruct accessor_functions_cached as (Hfirst & _ & Hget & Hclear & _).
  split; [apply (Hfirst boot); reflexivity|]. split.
  - apply (Hget wrapped_heap). vm_compute. reflexivity.
  - apply (Hclear wrapped_heap). vm_compute. reflexivity.
Defined.

(** ** Fault boundaries *)

Lemma try_catch_boundary {A} (body : M A) h f : (try_catch body h).1 ≠ Escaped f.
Proof. unfold try_catch. by repeat case_match. Qed.

(** C4.  Four of the five entry points have the three handlers around
    their whole body: whatever fault a call raises inside them, none
    leaves the function, and a fault of unknown type becomes the script
    exception "Error: c++ exception!".  [WeakTargetCallback] has no
    handler.  On a heap with one wrapper, when producing the key of the
    hidden slot raises, the holder-finalize callback turns the fault into
    a script exception and changes nothing, while the target-finalize
    callback lets it out to the collector, after it has deleted the target
    handle and before it has rewritten the hidden slot: the next [get()]
    on the holder dereferences the deleted handle. *)
Theorem fault_boundaries :
  (∀ faults args h f,
     (ConstructorCallback faults args h).1 ≠ Escaped f ∧
     (GettertCallback faults args h).1 ≠ Escaped f ∧
     (ClearCallback faults args h).1 ≠ Escaped f) ∧
  (∀ faults callbackState h f,
     (WeakHolderCallback faults callbackState h).1 ≠ Escaped f) ∧
  (∀ h, try_catch (throw UnknownFault : M unit) h =
          (ScriptException "Error: c++ exception!", h)) ∧
  WeakHolderCallback GetTarget_fails 1 wrapped_heap =
    (ScriptException "no target key", wrapped_heap) ∧
  (WeakTargetCallback GetTarget_fails 1 wrapped_heap).1 =
    Escaped (NativeScriptException "no target key") ∧
  persistents (WeakTargetCallback GetTarget_fails 1 wrapped_heap).2 !! 1%positive = None ∧
  (GettertCallback quiet (method_call 2)
     (WeakTargetCallback GetTarget_fails 1 wrapped_heap).2).1 = Crashed.
Proof.
  split_and!.
  - intros faults args h f. split_and!; apply try_catch_boundary.
  - intros faults cs h f. apply try_catch_boundary.
  - done.
  - vm_compute. reflexivity.
  - vm_compute. reflexivity.
  - vm_compute. reflexivity.
  - vm_compute. reflexivity.
Qed.

(** * Further properties of the file *)

(** ** A controller that was not initialised *)

Lemma ConstructorCallback_null_manager faults this x h :
  m_objectManager (thiz h) = None →
  ConstructorCallback faults (mkArgs true this [VObject x]) h = (Crashed, h).
Proof.
  intros Hm. unfold ConstructorCallback, ConstructorCallbackImpl, ConstructorCallbackImpl_ordered, try_catch. simpl.
  unfold mbind, M_bind, GetEmptyObject. by rewrite Hm.
Qed.

(** X1.  A construct call with one object argument on a controller whose
    object manager is null, as [WeakRef::WeakRef()] leaves it and as
    [Init] with a null manager leaves it, dereferences the null pointer
    before anything is allocated, whatever the engine does.  [Init] with
    an object manager writes that one member only, and makes a controller
    with sound accessor caches fit for the constructor. *)
Theorem constructor_needs_object_manager :
  (∀ faults this x h,
     m_objectManager (thiz h) = None →
     ConstructorCallback faults (mkArgs true this [VObject x]) h = (Crashed, h)) ∧
  (∀ faults this x h h0,
     (Init quiet None h0).2 = h →
     ConstructorCallback faults (mkArgs true this [VObject x]) h = (Crashed, h)) ∧
  (∀ om h,
     (∀ p, m_poGetterFunc (thiz h) = Some p →
           ∃ f, persistents h !! p = Some (mkPersistent (Some f) None)) →
     (∀ p, m_poClearFunc (thiz h) = Some p →
           ∃ f, persistents h !! p = Some (mkPersistent (Some f) None)) →
     ∃ h', Init quiet (Some om) h = (Ok tt, h') ∧ controller_ok h' ∧
       objects h' = objects h ∧ persistents h' = persistents h ∧
       states h' = states h ∧ freed h' = freed h ∧ leaked h' = leaked h ∧
       m_poGetterFunc (thiz h') = m_poGetterFunc (thiz h) ∧
       m_poClearFunc (thiz h') = m_poClearFunc (thiz h)).
Proof.
  split_and!.
  - apply ConstructorCallback_null_manager.
  - intros faults this x h h0 <-. by apply ConstructorCallback_null_manager.
  - intros om h Hg Hc. eexists. split; [reflexivity|]. simpl.
    split_and!; done.
Qed.

Lemma constructor_needs_object_manager_witness :
  ConstructorCallback quiet (construct_call [VObject 1%positive])
    (mkHeap ∅ ∅ ∅ [] [] WeakRef_new) = (Crashed, mkHeap ∅ ∅ ∅ [] [] WeakRef_new) ∧
  ∃ h', Init quiet (Some TheObjectManager) (mkHeap ∅ ∅ ∅ [] [] WeakRef_new) = (Ok tt, h') ∧
        controller_ok h'.
Proof.
  destruct constructor_needs_object_manager as (Hnull & _ & Hinit). split.
  - apply Hnull. reflexivity.
  - destruct (Hinit TheObjectManager (mkHeap ∅ ∅ ∅ [] [] WeakRef_new)) as (h' & Heq & Hok & _).
    + intros p Hp. discriminate Hp.
    + intros p Hp. discriminate Hp.
    + exists h'. split; [exact Heq|exact Hok].
Defined.

(** ** [clear()] under faults, and twice *)



(** X3.  On any object of any heap a second [clear()] changes nothing,
    and [get()] after [clear()] returns null, also on an object that never
    was a wrapper, on which [get()] before [clear()] dereferences the
    empty handle. *)
Theorem ClearCallback_idempotent h this ob :
  objects h !! this = Some ob →
  ∃ h1,
    ClearCallback quiet (method_call this) h = (Returned VUndefined, h1) ∧
    ClearCallback quiet (method_call this) h1 = (Returned VUndefined, h1) ∧
    GettertCallback quiet (method_call this) h1 = (Returned VNull, h1) ∧
    (hidden_target ob = None →
     (GettertCallback quiet (method_call this) h).1 = Crashed).
Proof.
  intros Ho. eexists. split; [by apply ClearCallback_spec|]. split_and!.
  - unfold method_call.
    rewrite (ClearCallback_spec _ false this [] (absent ob)) by apply lookup_insert_eq.
    destruct h as [O P S F L W]. unfold set_objects, absent. simpl.
    by rewrite insert_insert_eq.
  - eapply GettertCallback_absent; [apply lookup_insert_eq|done].
  - intros Hh. destruct h as [O P S F L W]; destruct ob as [pr hid nat]. simpl in *.
    subst hid. unfold_m. by mrun.
Qed.

Lemma ClearCallback_idempotent_witness :
  ∃ h1,
    ClearCallback quiet (method_call 1) wrapped_heap = (Returned VUndefined, h1) ∧
    ClearCallback quiet (method_call 1) h1 = (Returned VUndefined, h1) ∧
    GettertCallback quiet (method_call 1) h1 = (Returned VNull, h1) ∧
    (GettertCallback quiet (method_call 1) wrapped_heap).1 = Crashed.
Proof.
  destruct (ClearCallback_idempotent wrapped_heap 1%positive (mkJSObject ∅ None None))
    as (h1 & H1 & H2 & H3 & H4); [vm_compute; reflexivity|].
  exists h1. split; [exact H1|]. split; [exact H2|]. split; [exact H3|].
  apply H4. reflexivity.
Defined.

(** ** One collector pass, in closed form *)

Lemma collect_target_first h cs pT x pH w ho ob :
  states h !! cs = Some (mkCallbackState (Some pT) (Some pH)) →
  persistents h !! pT = Some (mkPersistent x (Some (cs, cbWeakTargetCallback))) →
  persistents h !! pH = Some (mkPersistent (Some ho) w) →
  pH ≠ pT →
  objects h !! ho = Some ob →
  collect quiet pT h =
    (Returned tt,
     mkHeap (<[ho := absent ob]> (objects h)) (delete pT (persistents h))
            (<[cs := mkCallbackState None (Some pH)]> (states h))
            (freed h) (leaked h) (thiz h)).
Proof.
  intros Hs HpT HpH Hne Ho. unfold collect. rewrite HpT.
  rewrite (WeakTargetCallback_first _ cs pT (mkPersistent x None) pH w ho ob);
    simpl; try done.
  - by rewrite delete_insert_eq.
  - apply lookup_insert_eq.
  - by rewrite lookup_insert_ne.
Qed.

Lemma collect_target_last h cs pT x :
  states h !! cs = Some (mkCallbackState (Some pT) None) →
  persistents h !! pT = Some (mkPersistent x (Some (cs, cbWeakTargetCallback))) →
  collect quiet pT h =
    (Returned tt,
     mkHeap (objects h) (delete pT (persistents h)) (delete cs (states h))
            ((cs, mkCallbackState None None) :: freed h) (leaked h) (thiz h)).
Proof.
  intros Hs HpT. unfold collect. rewrite HpT.
  rewrite (WeakTargetCallback_last _ cs pT (mkPersistent x None)); simpl; try done.
  - by rewrite delete_insert_eq.
  - apply lookup_insert_eq.
Qed.

Lemma collect_holder_release h cs st pH ho ob :
  states h !! cs = Some st → holder st = Some pH →
  persistents h !! pH = Some (mkPersistent (Some ho) (Some (cs, cbWeakHolderCallback))) →
  objects h !! ho = Some ob → hidden_target ob = Some None →
  collect quiet pH h =
    (Returned tt,
     match target st with
     | None =>
         mkHeap (objects h) (delete pH (persistents h)) (delete cs (states h))
                ((cs, mkCallbackState None None) :: freed h) (leaked h) (thiz h)
     | Some pT =>
         mkHeap (objects h) (delete pH (persistents h))
                (<[cs := mkCallbackState (Some pT) None]> (states h))
                (freed h) (leaked h) (thiz h)
     end).
Proof.
  intros Hs Hh HpH Ho Hhid. unfold collect. rewrite HpH.
  rewrite (WeakHolderCallback_release _ cs st pH None ho ob); simpl; try done.
  - rewrite delete_insert_eq. by destruct (target st).
  - apply lookup_insert_eq.
Qed.

(** ** Order of the two finalizations *)

(** X4.  From a wrapper with both handles registered and its slot
    holding the target handle, the target-finalize callback followed by
    the holder-finalize callback, the same after a holder pass that
    re-arms, and [clear()] followed by the holder-finalize and then the
    target-finalize callback all end in the same heap: both handles
    deleted, the record deleted and logged once, the holder's slot
    absent, and nothing else touched. *)
Theorem teardown_order_independent h cs pT x pH ho ob :
  states h !! cs = Some (mkCallbackState (Some pT) (Some pH)) →
  persistents h !! pT = Some (mkPersistent x (Some (cs, cbWeakTargetCallback))) →
  persistents h !! pH = Some (mkPersistent (Some ho) (Some (cs, cbWeakHolderCallback))) →
  objects h !! ho = Some ob → hidden_target ob = Some (Some pT) →
  let final :=
    mkHeap (<[ho := absent ob]> (objects h))
           (delete pH (delete pT (persistents h)))
           (delete cs (states h))
           ((cs, mkCallbackState None None) :: freed h) (leaked h) (thiz h) in
  exec quiet [eCollect pT; eCollect pH] h = Some final ∧
  exec quiet [eCollect pH; eCollect pT; eCollect pH] h = Some final ∧
  exec quiet [eClear ho; eCollect pH; eCollect pT] h = Some final.
Proof.
  intros Hs HpT HpH Ho Hhid final.
  assert (pH ≠ pT) as Hne by congruence.
  assert (Hfirst : exec quiet [eCollect pT; eCollect pH] h = Some final).
  { unfold exec, step.
    rewrite (collect_target_first h cs pT x pH _ ho ob Hs HpT HpH Hne Ho).
    rewrite (collect_holder_release _ cs (mkCallbackState None (Some pH)) pH ho (absent ob));
      simpl; try done.
    - by rewrite delete_insert_eq.
    - apply lookup_insert_eq.
    - by rewrite lookup_delete_ne.
    - apply lookup_insert_eq. }
  split_and!.
  - done.
  - change (exec quiet [eCollect pH; eCollect pT; eCollect pH] h)
      with (match step quiet (eCollect pH) h with
            | (Returned _, h') | (ScriptException _, h') =>
                exec quiet [eCollect pT; eCollect pH] h'
            | _ => None
            end).
    unfold step.
    by rewrite (collect_rearm h cs _ pH ho ob pT Hs eq_refl HpH Ho Hhid).
  - unfold exec, step, method_call.
    rewrite (ClearCallback_spec h false ho [] ob Ho). simpl.
    rewrite (collect_holder_release _ cs (mkCallbackState (Some pT) (Some pH)) pH ho
               (absent ob)); simpl; try done; [|apply lookup_insert_eq].
    rewrite (collect_target_last _ cs pT x); simpl.
    + unfold final. by rewrite delete_insert_eq, (delete_delete _ pT pH).
    + apply lookup_insert_eq.
    + by rewrite lookup_delete_ne.
Qed.

Lemma teardown_order_independent_witness :
  exec quiet [eCollect 1%positive; eCollect 2%positive] wrapped_heap =
  exec quiet [eClear 2%positive; eCollect 2%positive; eCollect 1%positive] wrapped_heap.
Proof.
  destruct (teardown_order_independent wrapped_heap 1%positive 1%positive
              (Some 1%positive) 2%positive 2%positive
              (mkJSObject (<["clear" := VObject 4%positive]>
                             (<["get" := VObject 3%positive]> ∅))
                          (Some (Some 1%positive)) None))
    as (H1 & _ & H3);
    [vm_compute; reflexivity|vm_compute; reflexivity|vm_compute; reflexivity
    |vm_compute; reflexivity|reflexivity|].
  exact (eq_trans H1 (eq_sym H3)).
Defined.

(** ** The holder while the target lives *)

(** X5.  While the hidden slot of the holder holds a target handle, any
    number of collector passes over the holder handle leave the heap as
    it is. *)
Theorem holder_survives_passes h cs st pH ho ob pT n :
  states h !! cs = Some st → holder st = Some pH →
  persistents h !! pH = Some (mkPersistent (Some ho) (Some (cs, cbWeakHolderCallback))) →
  objects h !! ho = Some ob → hidden_target ob = Some (Some pT) →
  exec quiet (replicate n (eCollect pH)) h = Some h.
Proof.
  intros Hs Hh HpH Ho Hhid. induction n as [|n IH]; [done|].
  simpl. by rewrite (collect_rearm h cs st pH ho ob pT Hs Hh HpH Ho Hhid).
Qed.

Lemma holder_survives_passes_witness :
  exec quiet (replicate 5 (eCollect 2%positive)) wrapped_heap = Some wrapped_heap.
Proof.
  apply (holder_survives_passes wrapped_heap 1%positive
           (mkCallbackState (Some 1%positive) (Some 2%positive)) 2%positive 2%positive
           (mkJSObject (<["clear" := VObject 4%positive]>
                          (<["get" := VObject 3%positive]> ∅))
                       (Some (Some 1%positive)) None) 1%positive 5);
    [vm_compute; reflexivity|reflexivity|vm_compute; reflexivity
    |vm_compute; reflexivity|reflexivity].
Defined.

(** ** The constructor, stage by stage *)

Lemma GetGetterFunction_at_GetTarget o h :
  GetGetterFunction (at_GetTarget o) h = GetGetterFunction quiet h.
Proof. reflexivity. Qed.

Lemma GetClearFunction_at_GetTarget o h :
  GetClearFunction (at_GetTarget o) h = GetClearFunction quiet h.
Proof. reflexivity. Qed.

Lemma ConstructorCallbackImpl_stages o h this x :
  controller_ok h →
  ∃ (r pT pH cs g c : positive) h6 h7 h9,
    objects h !! r = None ∧ persistents h !! pT = None ∧ persistents h !! pH = None ∧
    pT ≠ pH ∧ states h !! cs = None ∧
    h6 = mkHeap (<[r := mkJSObject ∅ None None]> (objects h))
           (<[pH := mkPersistent (Some r) (Some (cs, cbWeakHolderCallback))]>
              (<[pT := mkPersistent (Some x) (Some (cs, cbWeakTargetCallback))]>
                 (<[pH := mkPersistent (Some r) None]>
                    (<[pT := mkPersistent (Some x) None]> (persistents h)))))
           (<[cs := mkCallbackState (Some pT) (Some pH)]> (states h))
           (freed h) (leaked h) (thiz h) ∧
    GetGetterFunction quiet h6 = (Ok (Some g), h7) ∧
    extends h6 h7 ∧
    GetClearFunction quiet
      (set_objects <[r := mkJSObject (<["get" := VObject g]> ∅) None None]> h7) =
      (Ok (Some c), h9) ∧
    extends (set_objects <[r := mkJSObject (<["get" := VObject g]> ∅) None None]> h7) h9 ∧
    controller_ok h9 ∧
    ConstructorCallbackImpl (at_GetTarget o) (mkArgs true this [VObject x]) h =
      match o with
      | None =>
          (Ok (VObject r),
           set_objects
             <[r := mkJSObject (<["clear" := VObject c]> (<["get" := VObject g]> ∅))
                               (Some (Some pT)) None]> h9)
      | Some f =>
          (Throw f,
           set_objects
             <[r := mkJSObject (<["clear" := VObject c]> (<["get" := VObject g]> ∅))
                               None None]> h9)
      end.
Proof.
  intros Hok. pose proof Hok as ([om Hom] & Hg & Hc).
  destruct h as [O P S F L [om' pc pg]]. simpl in *. subst om'.
  unfold_ctor. simpl.
  pose proof (fresh_lookup O) as Hr. set (r := fresh (dom O)) in *.
  pose proof (fresh_lookup P) as HpT. set (pT := fresh (dom P)) in *.
  pose proof (fresh_lookup (<[pT := mkPersistent (Some x) None]> P)) as HpH.
  set (pH := fresh (dom (<[pT := mkPersistent (Some x) None]> P))) in *.
  pose proof (is_fresh (dom S ∪ list_to_set F.*1)) as Hcs.
  set (cs := fresh (dom S ∪ list_to_set F.*1)) in *.
  clearbody r pT pH cs.
  assert (pH ≠ pT) as Hne by (intros ->; by rewrite lookup_insert_eq in HpH).
  rewrite lookup_insert_ne in HpH by done.
  assert (S !! cs = None) as HcsS.
  { apply not_elem_of_dom. intros Hin. apply Hcs, elem_of_union. by left. }
  clear Hcs. mrun. rewrite GetGetterFunction_at_GetTarget.
  match goal with |- context [GetGetterFunction quiet ?hh] => set (h6 := hh) end.
  assert (controller_ok h6) as Hok6.
  { unfold controller_ok; simpl. split_and!; [done| |].
    - intros p Hp. destruct (Hg _ Hp) as [f Hf]. exists f.
      rewrite !lookup_insert_ne by congruence. done.
    - intros p Hp. destruct (Hc _ Hp) as [f Hf]. exists f.
      rewrite !lookup_insert_ne by congruence. done. }
  destruct (GetGetterFunction_spec h6 Hok6)
    as (g & pg' & h7 & Hget & E7 & Hok7 & _).
  rewrite Hget.
  assert (objects h7 !! r = Some (mkJSObject ∅ None None)) as Hr7.
  { apply (lookup_weaken _ _ _ _ (lookup_insert_eq _ _ _) (ext_objects _ _ E7)). }
  destruct h7 as [O7 P7 S7 F7 L7 W7]. simpl in Hr7. mrun.
  rewrite GetClearFunction_at_GetTarget.
  match goal with |- context [GetClearFunction quiet ?hh] => set (h8 := hh) end.
  assert (controller_ok h8) as Hok8 by done.
  destruct (GetClearFunction_spec h8 Hok8)
    as (c & pc' & h9 & Hclear & E9 & Hok9 & _).
  rewrite Hclear.
  assert (objects h9 !! r = Some (mkJSObject (<["get" := VObject g]> ∅) None None)) as Hr9.
  { apply (lookup_weaken _ _ _ _ (lookup_insert_eq _ _ _) (ext_objects _ _ E9)). }
  exists r, pT, pH, cs, g, c, h6, (mkHeap O7 P7 S7 F7 L7 W7), h9.
  destruct h9 as [O9 P9 S9 F9 L9 W9]. simpl in Hr9. mrun.
  split_and!; try done.
  destruct o as [f|]; mrun; by rewrite ?insert_insert_eq.
Qed.

Lemma ConstructorCallbackImpl_quiet args h :
  ConstructorCallbackImpl quiet args h = ConstructorCallbackImpl (at_GetTarget None) args h.
Proof. reflexivity. Qed.

(** What a construction, completed or cut short by the late fault, leaves
    of the heap it started from and of its own allocations. *)
Lemma ConstructorCallbackImpl_frame o h this x :
  controller_ok h →
  ∃ (r pT pH cs g c : positive) h',
    ConstructorCallbackImpl (at_GetTarget o) (mkArgs true this [VObject x]) h =
      (match o with None => Ok (VObject r) | Some f => Throw f end, h') ∧
    objects h !! r = None ∧ states h !! cs = None ∧
    objects h ⊆ objects h' ∧ persistents h ⊆ persistents h' ∧
    objects h' !! r =
      Some (mkJSObject (<["clear" := VObject c]> (<["get" := VObject g]> ∅))
                       (match o with None => Some (Some pT) | Some _ => None end) None) ∧
    persistents h' !! pT = Some (mkPersistent (Some x) (Some (cs, cbWeakTargetCallback))) ∧
    persistents h' !! pH = Some (mkPersistent (Some r) (Some (cs, cbWeakHolderCallback))) ∧
    states h' = <[cs := mkCallbackState (Some pT) (Some pH)]> (states h) ∧
    freed h' = freed h ∧ controller_ok h' ∧
    (∀ p c, persistents h' !! p = Some c → weak c ≠ None →
            persistents h !! p = Some c ∨ is_Some (referent c)).
Proof.
  intros Hok.
  destruct (ConstructorCallbackImpl_stages o h this x Hok)
    as (r & pT & pH & cs & g & c & h6 & h7 & h9 & Hr & HpT & HpH & Hne & Hcs & -> & Hget
        & E7 & Hclear & E9 & Hok9 & Heq).
  set (fin := mkJSObject (<["clear" := VObject c]> (<["get" := VObject g]> ∅))
                (match o with None => Some (Some pT) | Some _ => None end) None).
  exists r, pT, pH, cs, g, c, (set_objects <[r := fin]> h9).
  assert (persistents h ⊆ persistents h9) as Hp9.
  { etrans; [|apply (ext_persistents _ _ E9)]. simpl.
    etrans; [|apply (ext_persistents _ _ E7)]. simpl.
    apply map_subseteq_spec. intros k v Hk.
    rewrite !lookup_insert_ne by congruence. done. }
  assert (persistents h9 !! pT =
            Some (mkPersistent (Some x) (Some (cs, cbWeakTargetCallback)))) as HpT9.
  { apply (lookup_weaken _ _ _ _ (lookup_weaken _ _ _ _
      (eq_trans (lookup_insert_ne _ _ _ _ (not_eq_sym Hne)) (lookup_insert_eq _ _ _))
      (ext_persistents _ _ E7)) (ext_persistents _ _ E9)). }
  assert (persistents h9 !! pH =
            Some (mkPersistent (Some r) (Some (cs, cbWeakHolderCallback)))) as HpH9.
  { apply (lookup_weaken _ _ _ _ (lookup_weaken _ _ _ _ (lookup_insert_eq _ _ _)
      (ext_persistents _ _ E7)) (ext_persistents _ _ E9)). }
  split_and!; simpl; try done.
  - rewrite Heq. by destruct o.
  - apply map_subseteq_spec. intros k v Hk.
    assert (k ≠ r) as Hkr by congruence.
    rewrite lookup_insert_ne by done.
    refine (lookup_weaken _ _ _ _ _ (ext_objects _ _ E9)).
    simpl. rewrite lookup_insert_ne by done.
    refine (lookup_weaken _ _ _ _ _ (ext_objects _ _ E7)).
    simpl. by rewrite lookup_insert_ne.
  - apply lookup_insert_eq.
  - exact (eq_trans (ext_states _ _ E9) (ext_states _ _ E7)).
  - exact (eq_trans (ext_freed _ _ E9) (ext_freed _ _ E7)).
  - intros p c9 Hp Hw.
    destruct (persistents h7 !! p) as [c7|] eqn:Hp7;
      [|by destruct (Hw (ext_new_persistents _ _ E9 _ _ Hp Hp7))].
    pose proof (lookup_weaken _ _ _ _ Hp7 (ext_persistents _ _ E9)) as Hp'.
    rewrite Hp in Hp'. injection Hp' as <-.
    match type of E7 with extends ?hh _ => set (h6 := hh) in * end.
    destruct (persistents h6 !! p) as [c6|] eqn:Hp6;
      [|by destruct (Hw (ext_new_persistents _ _ E7 _ _ Hp7 Hp6))].
    pose proof (lookup_weaken _ _ _ _ Hp6 (ext_persistents _ _ E7)) as Hp'.
    rewrite Hp7 in Hp'. injection Hp' as <-. simpl in Hp6.
    destruct (decide (p = pH)) as [->|?].
    { rewrite lookup_insert_eq in Hp6. injection Hp6 as <-. right. by eexists. }
    rewrite lookup_insert_ne in Hp6 by done. destruct (decide (p = pT)) as [->|?].
    { rewrite lookup_insert_eq in Hp6. injection Hp6 as <-. right. by eexists. }
    rewrite !lookup_insert_ne in Hp6 by done. by left.
Qed.

(** ** A fault late in the constructor *)

Lemma WeakHolderCallback_no_slot h cs st pH w ho ob :
  states h !! cs = Some st → holder st = Some pH →
  persistents h !! pH = Some (mkPersistent (Some ho) w) →
  objects h !! ho = Some ob → hidden_target ob = None →
  WeakHolderCallback quiet cs h = (Crashed, h).
Proof.
  intros Hs Hh Hp Ho Hhid.
  destruct h as [O P S F L W]; destruct st as [t hd]; destruct ob as [pr hid nat].
  simpl in *. subst hd hid. unfold_m. by mrun.
Qed.

(** X6.  When the call that produces the key of the hidden slot raises
    in the constructor, the constructor reports the script exception of
    the fault, but the record and both registered handles it has
    allocated stay in the heap, with a holder object that has no hidden
    slot; a later collector pass over that holder handle dereferences the
    empty handle. *)
Theorem ConstructorCallback_late_fault h this x f :
  controller_ok h →
  ∃ (r pT pH cs : positive) ob h',
    ConstructorCallback (at_GetTarget (Some f)) (mkArgs true this [VObject x]) h =
      (ScriptException (ReThrowToV8 f), h') ∧
    states h !! cs = None ∧
    states h' !! cs = Some (mkCallbackState (Some pT) (Some pH)) ∧
    persistents h' !! pT = Some (mkPersistent (Some x) (Some (cs, cbWeakTargetCallback))) ∧
    persistents h' !! pH = Some (mkPersistent (Some r) (Some (cs, cbWeakHolderCallback))) ∧
    objects h !! r = None ∧ objects h' !! r = Some ob ∧ hidden_target ob = None ∧
    (collect quiet pH h').1 = Crashed.
Proof.
  intros Hok.
  destruct (ConstructorCallbackImpl_frame (Some f) h this x Hok)
    as (r & pT & pH & cs & g & c & h' & Heq & Hr & Hcs & _ & _ & Hr' & HpT & HpH & Hs & _).
  eexists r, pT, pH, cs, _, h'.
  unfold ConstructorCallback, try_catch. rewrite Heq.
  assert (states h' !! cs = Some (mkCallbackState (Some pT) (Some pH))) as Hs'
    by (rewrite Hs; apply lookup_insert_eq).
  split_and!; try done.
  unfold collect. rewrite HpH.
  erewrite (WeakHolderCallback_no_slot
              (set_persistents <[pH := mkPersistent (Some r) None]> h')
              cs _ pH None r); simpl; try done.
  apply lookup_insert_eq.
Qed.

Lemma ConstructorCallback_late_fault_witness :
  ∃ (r pT pH cs : positive) ob h',
    ConstructorCallback (at_GetTarget (Some UnknownFault))
      (construct_call [VObject 1%positive]) target_heap =
      (ScriptException "Error: c++ exception!", h') ∧
    states target_heap !! cs = None ∧
    states h' !! cs = Some (mkCallbackState (Some pT) (Some pH)) ∧
    persistents h' !! pT =
      Some (mkPersistent (Some 1%positive) (Some (cs, cbWeakTargetCallback))) ∧
    persistents h' !! pH = Some (mkPersistent (Some r) (Some (cs, cbWeakHolderCallback))) ∧
    objects target_heap !! r = None ∧ objects h' !! r = Some ob ∧
    hidden_target ob = None ∧
    (collect quiet pH h').1 = Crashed.
Proof.
  apply (ConstructorCallback_late_fault target_heap None 1%positive UnknownFault).
  vm_compute. split; [eexists; reflexivity|]. split; intros p Hp; discriminate Hp.
Defined.

(** ** Two wrappers of one target *)

(** X7.  Two constructions on one target give two different holders,
    each of which returns the target from [get()]; after [clear()] on the
    first, the first returns null and the second still returns the
    target. *)
Theorem wrappers_independent h this1 this2 x :
  controller_ok h →
  ∃ (r1 r2 : positive) h1 h2 h3,
    ConstructorCallback quiet (mkArgs true this1 [VObject x]) h =
      (Returned (VObject r1), h1) ∧
    ConstructorCallback quiet (mkArgs true this2 [VObject x]) h1 =
      (Returned (VObject r2), h2) ∧
    r1 ≠ r2 ∧
    GettertCallback quiet (method_call r1) h2 = (Returned (VObject x), h2) ∧
    GettertCallback quiet (method_call r2) h2 = (Returned (VObject x), h2) ∧
    ClearCallback quiet (method_call r1) h2 = (Returned VUndefined, h3) ∧
    GettertCallback quiet (method_call r1) h3 = (Returned VNull, h3) ∧
    GettertCallback quiet (method_call r2) h3 = (Returned (VObject x), h3).
Proof.
  intros Hok.
  destruct (ConstructorCallbackImpl_frame None h this1 x Hok)
    as (r1 & pT1 & pH1 & cs1 & g1 & c1 & h1 & Heq1 & _ & _ & _ & _ & Hr1 & HpT1 & _ & _ & _
        & Hok1 & _).
  destruct (ConstructorCallbackImpl_frame None h1 this2 x Hok1)
    as (r2 & pT2 & pH2 & cs2 & g2 & c2 & h2 & Heq2 & Hfresh & _ & Ho12 & Hp12 & Hr2 & HpT2
        & _).
  rewrite <- ConstructorCallbackImpl_quiet in Heq1, Heq2.
  assert (r1 ≠ r2) as Hne by congruence.
  pose proof (lookup_weaken _ _ _ _ Hr1 Ho12) as Hr1'.
  pose proof (lookup_weaken _ _ _ _ HpT1 Hp12) as HpT1'.
  eexists r1, r2, h1, h2, _. unfold ConstructorCallback, try_catch. rewrite Heq1, Heq2.
  split_and!; try done.
  - exact (GettertCallback_live h2 false r1 [] _ pT1 _ Hr1' eq_refl HpT1').
  - exact (GettertCallback_live h2 false r2 [] _ pT2 _ Hr2 eq_refl HpT2).
  - by apply ClearCallback_spec.
  - eapply GettertCallback_absent; [apply lookup_insert_eq|done].
  - match goal with |- GettertCallback _ _ ?hh = _ =>
      assert (objects hh !! r2 = objects h2 !! r2) as Ho3
        by (simpl; by rewrite lookup_insert_ne)
    end.
    rewrite Hr2 in Ho3.
    exact (GettertCallback_live _ false r2 [] _ pT2 _ Ho3 eq_refl HpT2).
Qed.

Lemma wrappers_independent_witness :
  ∃ (r1 r2 : positive) h1 h2 h3,
    ConstructorCallback quiet (mkArgs true None [VObject 1%positive]) wrapped_heap =
      (Returned (VObject r1), h1) ∧
    ConstructorCallback quiet (mkArgs true None [VObject 1%positive]) h1 =
      (Returned (VObject r2), h2) ∧
    r1 ≠ r2 ∧
    GettertCallback quiet (method_call r1) h2 = (Returned (VObject 1%positive), h2) ∧
    GettertCallback quiet (method_call r2) h2 = (Returned (VObject 1%positive), h2) ∧
    ClearCallback quiet (method_call r1) h2 = (Returned VUndefined, h3) ∧
    GettertCallback quiet (method_call r1) h3 = (Returned VNull, h3) ∧
    GettertCallback quiet (method_call r2) h3 = (Returned (VObject 1%positive), h3).
Proof.
  apply (wrappers_independent wrapped_heap None None 1%positive).
  vm_compute. split; [eexists; reflexivity|].
  split; intros p Hp; injection Hp as <-; eexists; reflexivity.
Defined.

(** ** Two more invariants of a run *)

Lemma collect_closed h p :
  heap_inv None h →
  ∃ h', collect quiet p h = (Returned tt, h') ∧ thiz h' = thiz h ∧
        persistents h' ⊆ persistents h.
Proof.
  intros Hinv.
  destruct (persistents h !! p) as [[obj [[cs cb]|]]|] eqn:Hp.
  2,3: exists h; unfold collect; rewrite Hp; done.
  destruct (inv_registered _ _ Hinv _ _ _ _ Hp) as (st & Hs & Hf).
  destruct cb; simpl in Hf.
  - destruct st as [t [pH|]]; simpl in Hf; subst t.
    + destruct (inv_holder _ _ Hinv _ _ _ Hs eq_refl) as (ho & ob & HpH & Ho & _).
      assert (pH ≠ p) as Hne by congruence.
      rewrite (collect_target_first h cs p obj pH _ ho ob Hs Hp HpH Hne Ho).
      eexists. split_and!; [done|done|apply delete_subseteq].
    + rewrite (collect_target_last h cs p obj Hs Hp).
      eexists. split_and!; [done|done|apply delete_subseteq].
  - destruct (inv_holder _ _ Hinv _ _ _ Hs Hf) as (ho & ob & HpH & Ho & Hsl).
    rewrite Hp in HpH. injection HpH as ->.
    destruct (hidden_target ob) as [[pT|]|] eqn:Hhid.
    + rewrite (collect_rearm h cs st p ho ob pT Hs Hf Hp Ho Hhid). by exists h.
    + rewrite (collect_holder_release h cs st p ho ob Hs Hf Hp Ho Hhid).
      eexists. split; [done|]. destruct (target st); split; try done; apply delete_subseteq.
    + destruct Hsl as [?|[?|[? _]]]; congruence.
Qed.

Lemma step_frame h e c h' :
  heap_inv None h → (∀ args, e ≠ eConstruct args) → step quiet e h = (c, h') →
  thiz h' = thiz h ∧ persistents h' ⊆ persistents h.
Proof.
  intros Hinv Hne Hstep. destruct e as [args|this|this| |p]; simpl in Hstep.
  - by destruct (Hne args).
  - pose proof (GettertCallback_heap quiet (method_call this) h) as Hh.
    destruct (GettertCallback quiet (method_call this) h) as [c0 h0]. simpl in Hh.
    subst h0. by destruct c0; simpl in Hstep; simplify_eq.
  - destruct (objects h !! this) as [ob|] eqn:Ho.
    + unfold method_call in Hstep. rewrite (ClearCallback_spec _ _ _ _ _ Ho) in Hstep.
      simpl in Hstep. by simplify_eq.
    + unfold method_call in Hstep. rewrite (ClearCallback_missing _ _ _ _ Ho) in Hstep.
      simpl in Hstep. by simplify_eq.
  - unfold new_object in Hstep. simpl in Hstep. by simplify_eq.
  - destruct (collect_closed h p Hinv) as (h2 & Heq & Ht & Hp).
    rewrite Heq in Hstep. by simplify_eq.
Qed.

Lemma accessors_ok_set_object h o ob ob' :
  objects h !! o = Some ob → native ob' = native ob →
  accessors_ok h → accessors_ok (set_objects <[o := ob']> h).
Proof.
  intros Ho Hn [Hg Hc]. split; simpl.
  - intros p Hp. destruct (Hg _ Hp) as (f & fo & H1 & H2 & H3).
    destruct (decide (f = o)) as [->|?].
    + exists o, ob'. rewrite lookup_insert_eq. split_and!; [done|done|congruence].
    + exists f, fo. by rewrite lookup_insert_ne.
  - intros p Hp. destruct (Hc _ Hp) as (f & fo & H1 & H2 & H3).
    destruct (decide (f = o)) as [->|?].
    + exists o, ob'. rewrite lookup_insert_eq. split_and!; [done|done|congruence].
    + exists f, fo. by rewrite lookup_insert_ne.
Qed.

Lemma GetGetterFunction_accessors h g h' :
  accessors_ok h → GetGetterFunction quiet h = (Ok (Some g), h') →
  accessors_ok h' ∧ ∃ fo, objects h' !! g = Some fo ∧ native fo = Some cbGettertCallback.
Proof.
  intros [Hg Hc] Heq. destruct (m_poGetterFunc (thiz h)) as [p|] eqn:Hm.
  - destruct (Hg _ eq_refl) as (f & fo & H1 & H2 & H3).
    rewrite (GetGetterFunction_cached _ _ _ _ Hm H1) in Heq. injection Heq as <- <-.
    split; [|by eauto]. split; [by rewrite Hm|done].
  - rewrite (GetGetterFunction_first _ Hm) in Heq. injection Heq as <- <-.
    split; [split; simpl|].
    + intros p [= <-]. eexists _, _. rewrite !lookup_insert_eq. done.
    + intros p Hp. destruct (Hc _ Hp) as (f & fo & H1 & H2 & H3). exists f, fo.
      rewrite !lookup_insert_ne; [done| |].
      * intros Heq. pose proof (fresh_lookup (objects h)). congruence.
      * intros Heq. pose proof (fresh_lookup (persistents h)). congruence.
    + eexists. simpl. by rewrite lookup_insert_eq.
Qed.

Lemma GetClearFunction_accessors h c h' :
  accessors_ok h → GetClearFunction quiet h = (Ok (Some c), h') →
  accessors_ok h' ∧ ∃ fo, objects h' !! c = Some fo ∧ native fo = Some cbClearCallback.
Proof.
  intros [Hg Hc] Heq. destruct (m_poClearFunc (thiz h)) as [p|] eqn:Hm.
  - destruct (Hc _ eq_refl) as (f & fo & H1 & H2 & H3).
    rewrite (GetClearFunction_cached _ _ _ _ Hm H1) in Heq. injection Heq as <- <-.
    split; [|by eauto]. split; [done|by rewrite Hm].
  - rewrite (GetClearFunction_first _ Hm) in Heq. injection Heq as <- <-.
    split; [split; simpl|].
    + intros p Hp. destruct (Hg _ Hp) as (f & fo & H1 & H2 & H3). exists f, fo.
      rewrite !lookup_insert_ne; [done| |].
      * intros Heq. pose proof (fresh_lookup (objects h)). congruence.
      * intros Heq. pose proof (fresh_lookup (persistents h)). congruence.
    + intros p [= <-]. eexists _, _. rewrite !lookup_insert_eq. done.
    + eexists. simpl. by rewrite lookup_insert_eq.
Qed.

Lemma ConstructorCallbackImpl_accessors h this x :
  controller_ok h → accessors_ok h →
  ∃ (r pT g c : positive) go co h',
    ConstructorCallbackImpl quiet (mkArgs true this [VObject x]) h = (Ok (VObject r), h') ∧
    objects h' !! r =
      Some (mkJSObject (<["clear" := VObject c]> (<["get" := VObject g]> ∅))
                       (Some (Some pT)) None) ∧
    objects h' !! g = Some go ∧ native go = Some cbGettertCallback ∧
    objects h' !! c = Some co ∧ native co = Some cbClearCallback ∧
    accessors_ok h'.
Proof.
  intros Hok Hacc.
  destruct (ConstructorCallbackImpl_stages None h this x Hok)
    as (r & pT & pH & cs & g & c & h6 & h7 & h9 & Hr & HpT & HpH & Hne & Hcs & -> & Hget
        & E7 & Hclear & E9 & Hok9 & Heq).
  match type of Hget with GetGetterFunction quiet ?hh = _ => set (h6 := hh) in * end.
  assert (accessors_ok h6) as A6.
  { destruct Hacc as [Hg Hc]. split; simpl.
    - intros p Hp. destruct (Hg _ Hp) as (f & fo & H1 & H2 & H3). exists f, fo.
      rewrite !lookup_insert_ne by congruence. done.
    - intros p Hp. destruct (Hc _ Hp) as (f & fo & H1 & H2 & H3). exists f, fo.
      rewrite !lookup_insert_ne by congruence. done. }
  destruct (GetGetterFunction_accessors h6 g h7 A6 Hget) as (A7 & go & Hgo & Hgn).
  assert (objects h7 !! r = Some (mkJSObject ∅ None None)) as Hr7.
  { apply (lookup_weaken _ _ _ _ (lookup_insert_eq _ _ _) (ext_objects _ _ E7)). }
  assert (g ≠ r) as Hgr by (intros ->; rewrite Hr7 in Hgo; by simplify_eq).
  match type of Hclear with GetClearFunction quiet ?hh = _ => set (h8 := hh) in * end.
  assert (accessors_ok h8) as A8
    by (by apply (accessors_ok_set_object h7 r (mkJSObject ∅ None None))).
  destruct (GetClearFunction_accessors h8 c h9 A8 Hclear) as (A9 & co & Hco & Hcn).
  assert (objects h9 !! r = Some (mkJSObject (<["get" := VObject g]> ∅) None None)) as Hr9.
  { apply (lookup_weaken _ _ _ _ (lookup_insert_eq _ _ _) (ext_objects _ _ E9)). }
  assert (c ≠ r) as Hcr by (intros ->; rewrite Hr9 in Hco; by simplify_eq).
  assert (objects h9 !! g = Some go) as Hgo9.
  { refine (lookup_weaken _ _ _ _ _ (ext_objects _ _ E9)). simpl.
    by rewrite lookup_insert_ne. }
  eexists r, pT, g, c, go, co, _. rewrite ConstructorCallbackImpl_quiet.
  split; [exact Heq|]. simpl. split_and!; try done.
  - apply lookup_insert_eq.
  - by rewrite lookup_insert_ne.
  - by rewrite lookup_insert_ne.
  - by apply (accessors_ok_set_object h9 r
                (mkJSObject (<["get" := VObject g]> ∅) None None)).
Qed.

Lemma step_extra h e c h' :
  heap_inv None h → accessors_ok h → handles_set h →
  step quiet e h = (c, h') → c ≠ Crashed →
  accessors_ok h' ∧ handles_set h'.
Proof.
  intros Hinv Hacc Hset Hstep Hc.
  assert (Hother : (∀ args, e ≠ eConstruct args) → accessors_ok h' ∧ handles_set h').
  { intros Hne. destruct (step_frame _ _ _ _ Hinv Hne Hstep) as [Ht Hp].
    destruct (step_spec _ _ _ _ Hinv Hstep Hc) as (_ & V & _). split.
    - destruct Hacc as [Hg Hcl]. split; rewrite Ht.
      + intros p Hm. destruct (Hg _ Hm) as (f & fo & H1 & H2 & H3).
        destruct (ev_getter _ _ V _ _ Hm H1 eq_refl) as [_ H1'].
        destruct (ev_objects _ _ V _ _ H2) as (fo' & H2' & Hn & _).
        exists f, fo'. split_and!; [done|done|congruence].
      + intros p Hm. destruct (Hcl _ Hm) as (f & fo & H1 & H2 & H3).
        destruct (ev_clear _ _ V _ _ Hm H1 eq_refl) as [_ H1'].
        destruct (ev_objects _ _ V _ _ H2) as (fo' & H2' & Hn & _).
        exists f, fo'. split_and!; [done|done|congruence].
    - intros p c0 Hp0 Hw. apply (Hset p c0); [|done]. by eapply lookup_weaken. }
  destruct e as [args|this|this| |p]; try (by apply Hother).
  simpl in Hstep.
  destruct (IsConstructCall args) eqn:H1;
    [destruct (decide (Length args = 1)) as [H2|H2];
     [destruct (IsObject (arg args 0)) eqn:H3|]|].
  2-4: rewrite ConstructorCallback_refusal in Hstep by auto; simpl in Hstep;
       by simplify_eq.
  destruct (args_accepted _ H1 H2 H3) as (this & x & ->).
  destruct (ConstructorCallbackImpl_accessors h this x (inv_controller _ _ Hinv) Hacc)
    as (r & pT & g & c' & go & co & h2 & Heq & _ & _ & _ & _ & _ & A2).
  destruct (ConstructorCallbackImpl_frame None h this x (inv_controller _ _ Hinv))
    as (r' & pT' & pH' & cs' & g' & c'' & h2' & Heq' & _ & _ & _ & _ & _ & _ & _ & _ & _ & _
        & Hnew).
  rewrite <- ConstructorCallbackImpl_quiet in Heq'. rewrite Heq in Heq'.
  injection Heq' as <- <-.
  unfold ConstructorCallback, try_catch in Hstep. rewrite Heq in Hstep.
  simpl in Hstep. injection Hstep as <- <-. split; [done|].
  intros p c0 Hp0 Hw. destruct (Hnew _ _ Hp0 Hw) as [Hold|?]; [|done].
  by apply (Hset p c0).
Qed.

Lemma exec_extra es h h' :
  heap_inv None h → accessors_ok h → handles_set h →
  exec quiet es h = Some h' → accessors_ok h' ∧ handles_set h'.
Proof.
  revert h. induction es as [|e es IH]; intros h Hinv Hacc Hset Hex; simpl in Hex.
  - by simplify_eq.
  - destruct (step quiet e h) as [c h1] eqn:Hstep.
    assert (c ≠ Crashed) as Hc by (intros ->; done).
    destruct (step_spec _ _ _ _ Hinv Hstep Hc) as (I1 & _).
    destruct (step_extra _ _ _ _ Hinv Hacc Hset Hstep Hc) as [A1 S1].
    assert (exec quiet es h1 = Some h') as Hex' by (by destruct c).
    by apply (IH h1).
Qed.

Lemma boot_extra : accessors_ok boot ∧ handles_set boot.
Proof.
  assert (boot = mkHeap ∅ ∅ ∅ [] [] (mkWeakRef (Some TheObjectManager) None None)) as ->
    by reflexivity.
  split; [split|]; simpl; try done.
Qed.

(** ** [get()] in a reachable heap *)

(** X8.  In a heap reached from the start of the process, [get()] on an
    object whose hidden slot is set returns normally: null for the absent
    sentinel, and otherwise the object that the handle in the slot refers
    to, the handle being alive and registered as a target handle.  On an
    object with no hidden slot it dereferences the empty handle. *)
Theorem GettertCallback_safe es h this ob :
  exec quiet es boot = Some h → objects h !! this = Some ob →
  match hidden_target ob with
  | None => GettertCallback quiet (method_call this) h = (Crashed, h)
  | Some None => GettertCallback quiet (method_call this) h = (Returned VNull, h)
  | Some (Some p) =>
      ∃ t cs,
        persistents h !! p =
          Some (mkPersistent (Some t) (Some (cs, cbWeakTargetCallback))) ∧
        GettertCallback quiet (method_call this) h = (Returned (VObject t), h)
  end.
Proof.
  intros Hex Ho. destruct (exec_spec _ _ _ boot_inv Hex) as [Hinv _].
  destruct boot_extra as [A0 S0].
  destruct (exec_extra _ _ _ boot_inv A0 S0 Hex) as [_ Hset].
  destruct (hidden_target ob) as [[p|]|] eqn:Hhid.
  - destruct (inv_slot _ _ Hinv _ _ _ Ho Hhid) as (x & cs & st & pH & w & Hp & _).
    destruct (Hset _ _ Hp) as [t Ht]; [done|]. simpl in Ht. subst x.
    exists t, cs. split; [done|].
    exact (GettertCallback_live h false this [] ob p _ Ho Hhid Hp).
  - by eapply GettertCallback_absent.
  - destruct h as [O P S F L W]; destruct ob as [pr hid nat]. simpl in *.
    subst hid. unfold_m. by mrun.
Qed.

Lemma GettertCallback_safe_witness :
  (∃ t cs,
     persistents wrapped_heap !! 1%positive =
       Some (mkPersistent (Some t) (Some (cs, cbWeakTargetCallback))) ∧
     GettertCallback quiet (method_call 2) wrapped_heap =
       (Returned (VObject t), wrapped_heap)) ∧
  GettertCallback quiet (method_call 1) wrapped_heap = (Crashed, wrapped_heap).
Proof.
  split.
  - apply (GettertCallback_safe (take 2 demo_run) wrapped_heap 2%positive
             (mkJSObject (<["clear" := VObject 4%positive]>
                            (<["get" := VObject 3%positive]> ∅))
                         (Some (Some 1%positive)) None));
      vm_compute; reflexivity.
  - apply (GettertCallback_safe (take 2 demo_run) wrapped_heap 1%positive
             (mkJSObject ∅ None None)); vm_compute; reflexivity.
Defined.

(** ** The accessors a wrapper carries *)

(** X9.  In a heap reached from the start of the process, the holder the
    constructor returns is not itself a function, its [get] property is a
    function object around [GettertCallback] and its [clear] property one
    around [ClearCallback], and the three objects are different. *)
Theorem holder_accessors_wired es h args r h' :
  exec quiet es boot = Some h →
  ConstructorCallback quiet args h = (Returned (VObject r), h') →
  ∃ (g c : positive) ob go co,
    objects h' !! r = Some ob ∧ native ob = None ∧
    properties ob !! "get" = Some (VObject g) ∧
    properties ob !! "clear" = Some (VObject c) ∧
    objects h' !! g = Some go ∧ native go = Some cbGettertCallback ∧
    objects h' !! c = Some co ∧ native co = Some cbClearCallback ∧
    g ≠ c ∧ g ≠ r ∧ c ≠ r.
Proof.
  intros Hex Hcall. destruct (exec_spec _ _ _ boot_inv Hex) as [Hinv _].
  destruct boot_extra as [A0 S0].
  destruct (exec_extra _ _ _ boot_inv A0 S0 Hex) as [Hacc _].
  destruct (IsConstructCall args) eqn:H1;
    [destruct (decide (Length args = 1)) as [H2|H2];
     [destruct (IsObject (arg args 0)) eqn:H3|]|].
  2-4: by rewrite ConstructorCallback_refusal in Hcall by auto.
  destruct (args_accepted _ H1 H2 H3) as (this & x & ->).
  destruct (ConstructorCallbackImpl_accessors h this x (inv_controller _ _ Hinv) Hacc)
    as (r0 & pT & g & c & go & co & h2 & Heq & Hr & Hgo & Hgn & Hco & Hcn & _).
  unfold ConstructorCallback, try_catch in Hcall. rewrite Heq in Hcall.
  injection Hcall as <- <-.
  eexists g, c, _, go, co. split; [exact Hr|]. simpl. split_and!; try done.
  - intros ->. congruence.
  - intros ->. rewrite Hr in Hgo. by simplify_eq.
  - intros ->. rewrite Hr in Hco. by simplify_eq.
Qed.

Lemma holder_accessors_wired_witness :
  ∃ (g c : positive) ob go co,
    objects wrapped_heap !! 2%positive = Some ob ∧ native ob = None ∧
    properties ob !! "get" = Some (VObject g) ∧
    properties ob !! "clear" = Some (VObject c) ∧
    objects wrapped_heap !! g = Some go ∧ native go = Some cbGettertCallback ∧
    objects wrapped_heap !! c = Some co ∧ native co = Some cbClearCallback ∧
    g ≠ c ∧ g ≠ 2%positive ∧ c ≠ 2%positive.
Proof.
  apply (holder_accessors_wired [eNewObject] (new_object boot).2
           (construct_call [VObject 1%positive]) 2%positive wrapped_heap);
    vm_compute; reflexivity.
Defined.

(** ** The holder-finalize callback under faults *)

(** X10.  Whatever call faults, the holder-finalize callback on a record
    whose holder has a hidden slot either does what it does with no fault,
    or ends in the script exception of a fault that one of its calls
    raised, with the heap as it was. *)
Theorem WeakHolderCallback_all_or_nothing faults h cs st pH w ho ob :
  states h !! cs = Some st → holder st = Some pH →
  persistents h !! pH = Some (mkPersistent (Some ho) w) →
  objects h !! ho = Some ob → is_Some (hidden_target ob) →
  WeakHolderCallback faults cs h = WeakHolderCallback quiet cs h ∨
  ∃ s f, faults s = Some f ∧
         WeakHolderCallback faults cs h = (ScriptException (ReThrowToV8 f), h).
Proof.
  intros Hs Hh Hp Ho [e Hhid].
  destruct h as [O P S F L W]; destruct st as [t hd]; destruct ob as [pr hid nat].
  simpl in *. subst hd hid. unfold_m. mrun.
  destruct (faults sLocalNew) as [f|] eqn:E1; [right; by exists sLocalNew, f|].
  destruct (faults sGetTarget) as [f|] eqn:E2; [right; by exists sGetTarget, f|]. mrun.
  destruct (faults sGetHiddenValue) as [f|] eqn:E3;
    [right; by exists sGetHiddenValue, f|]. mrun.
  destruct e as [pT|]; mrun.
  - destruct (faults sSetWeak) as [f|] eqn:E4; [right; by exists sSetWeak, f|]. by left.
  - destruct (faults sReset) as [f|] eqn:E4; [right; by exists sReset, f|]. left. mrun.
    by destruct t; mrun.
Qed.

Lemma WeakHolderCallback_all_or_nothing_witness :
  WeakHolderCallback GetTarget_fails 1 wrapped_heap =
    WeakHolderCallback quiet 1 wrapped_heap ∨
  ∃ s f, GetTarget_fails s = Some f ∧
         WeakHolderCallback GetTarget_fails 1 wrapped_heap =
           (ScriptException (ReThrowToV8 f), wrapped_heap).
Proof.
  apply (WeakHolderCallback_all_or_nothing GetTarget_fails wrapped_heap 1%positive
           (mkCallbackState (Some 1%positive) (Some 2%positive)) 2%positive
           (Some (1%positive, cbWeakHolderCallback)) 2%positive
           (mkJSObject (<["clear" := VObject 4%positive]>
                          (<["get" := VObject 3%positive]> ∅))
                       (Some (Some 1%positive)) None));
    [vm_compute; reflexivity|reflexivity|vm_compute; reflexivity
    |vm_compute; reflexivity|eexists; reflexivity].
Defined.

(** ** No handle is left without an owner *)

Section Leaks.
Variable faults : Site → option Fault.

Lemma keeps_ret {A} (a : A) : keeps_leaked (mret a).
Proof. done. Qed.

Lemma keeps_bind {A B} (m : M A) (f : A → M B) :
  keeps_leaked m → (∀ a, keeps_leaked (f a)) → keeps_leaked (m ≫= f).
Proof.
  intros Hm Hf h. unfold mbind, M_bind. specialize (Hm h).
  destruct (m h) as [[a|e|] h1]; simpl in *; [|done|done].
  by rewrite Hf.
Qed.

Lemma keeps_call {A} s (m : M A) : keeps_leaked m → keeps_leaked (call faults s m).
Proof. intros Hm h. unfold call. destruct (faults s); [done|apply Hm]. Qed.

Lemma keeps_throw {A} f : keeps_leaked (throw f : M A).
Proof. done. Qed.

Lemma keeps_try_catch_no_return {A} (m : M A) :
  keeps_leaked m → keeps_leaked (try_catch_no_return m).
Proof.
  intros Hm h. unfold try_catch_no_return. specialize (Hm h).
  by destruct (m h) as [[a|e|] h1].
Qed.

Lemma keeps_args2 {A B} order (a : M A) (b : M B) :
  keeps_leaked a → keeps_leaked b → keeps_leaked (args2 order a b).
Proof.
  intros Ha Hb. destruct order; simpl;
    repeat (apply keeps_bind; [done|intros ?]); apply keeps_ret.
Qed.

Lemma keeps_GetEmptyObject : keeps_leaked (GetEmptyObject faults).
Proof. intros h. unfold GetEmptyObject, call. by repeat case_match. Qed.
Lemma keeps_new_Persistent obj : keeps_leaked (new_Persistent faults obj).
Proof. intros h. unfold new_Persistent, call. by repeat case_match. Qed.
Lemma keeps_new_CallbackState t ho : keeps_leaked (new_CallbackState faults t ho).
Proof. intros h. unfold new_CallbackState, call. by repeat case_match. Qed.
Lemma keeps_read_state cs : keeps_leaked (read_state cs).
Proof. intros h. unfold read_state. by repeat case_match. Qed.
Lemma keeps_write_target cs p : keeps_leaked (write_target cs p).
Proof. intros h. unfold write_target. by repeat case_match. Qed.
Lemma keeps_write_holder cs p : keeps_leaked (write_holder cs p).
Proof. intros h. unfold write_holder. by repeat case_match. Qed.
Lemma keeps_delete_CallbackState cs : keeps_leaked (delete_CallbackState cs).
Proof. intros h. unfold delete_CallbackState. by repeat case_match. Qed.
Lemma keeps_deref p : keeps_leaked (deref p).
Proof. intros h. unfold deref. by repeat case_match. Qed.
Lemma keeps_SetWeak p cs cb : keeps_leaked (SetWeak faults p cs cb).
Proof.
  apply keeps_bind; [apply keeps_deref|intros [a c]]. by apply keeps_call.
Qed.
Lemma keeps_Local_New p : keeps_leaked (Local_New faults p).
Proof.
  apply keeps_bind; [apply keeps_deref|intros [a c]]. by apply keeps_call.
Qed.
Lemma keeps_GetTarget : keeps_leaked (GetTarget faults).
Proof. by apply keeps_call. Qed.
Lemma keeps_External_New {A} (p : A) : keeps_leaked (External_New faults p).
Proof. by apply keeps_call. Qed.
Lemma keeps_SetHiddenValue obj e : keeps_leaked (SetHiddenValue faults obj e).
Proof. intros h. unfold SetHiddenValue, call. by repeat case_match. Qed.
Lemma keeps_GetHiddenValue obj : keeps_leaked (GetHiddenValue faults obj).
Proof. intros h. unfold GetHiddenValue, call. by repeat case_match. Qed.
Lemma keeps_External_Value v : keeps_leaked (External_Value v).
Proof. by destruct v. Qed.
Lemma keeps_ConvertToV8String s : keeps_leaked (ConvertToV8String faults s).
Proof. by apply keeps_call. Qed.
Lemma keeps_Set_ obj k v : keeps_leaked (Set_ faults obj k v).
Proof. intros h. unfold Set_, call. by repeat case_match. Qed.
Lemma keeps_FunctionTemplate cb : keeps_leaked (FunctionTemplate_New_GetFunction faults cb).
Proof. by do 2 apply keeps_call. Qed.
Lemma keeps_Null : keeps_leaked (Null faults).
Proof. by apply keeps_call. Qed.

(** The one step that can leak, and why it does not. *)
Lemma keeps_Reset_delete {A} p (k : M A) :
  keeps_leaked k →
  keeps_leaked (Reset faults p;; delete_Persistent p;; k).
Proof.
  intros Hk h. unfold Reset, deref, delete_Persistent, call, modify, mbind, M_bind.
  destruct p as [a|]; [|done]. destruct (persistents h !! a) as [c|]; [|done].
  destruct (faults sReset); [done|]. simpl. rewrite lookup_insert_eq. simpl.
  by rewrite Hk.
Qed.

Lemma keeps_store_m_poGetterFunc p : keeps_leaked (store_m_poGetterFunc p).
Proof. done. Qed.
Lemma keeps_store_m_poClearFunc p : keeps_leaked (store_m_poClearFunc p).
Proof. done. Qed.

Local Hint Resolve keeps_store_m_poGetterFunc keeps_store_m_poClearFunc : leaks.
Local Hint Resolve keeps_ret keeps_call keeps_throw keeps_GetEmptyObject keeps_new_Persistent
  keeps_new_CallbackState keeps_read_state keeps_write_target keeps_write_holder
  keeps_delete_CallbackState keeps_deref keeps_SetWeak keeps_Local_New keeps_GetTarget
  keeps_External_New keeps_SetHiddenValue keeps_GetHiddenValue keeps_External_Value
  keeps_ConvertToV8String keeps_Set_ keeps_FunctionTemplate keeps_Null keeps_args2 : leaks.

Ltac keeps := repeat first
  [ progress cbv zeta
  | apply keeps_Reset_delete
  | solve [auto with leaks]
  | apply keeps_bind; [|intros ?]
  | case_match ].

Lemma keeps_GetGetterFunction : keeps_leaked (GetGetterFunction faults).
Proof.
  apply keeps_try_catch_no_return. intros h. unfold mbind, M_bind, get_heap.
  destruct (m_poGetterFunc (thiz h)); [apply keeps_Local_New|].
  revert h. keeps.
Qed.

Lemma keeps_GetClearFunction : keeps_leaked (GetClearFunction faults).
Proof.
  apply keeps_try_catch_no_return. intros h. unfold mbind, M_bind, get_heap.
  destruct (m_poClearFunc (thiz h)); [apply keeps_Local_New|].
  revert h. keeps.
Qed.

Local Hint Resolve keeps_GetGetterFunction keeps_GetClearFunction : leaks.









End Leaks.






